(** * flatty: the batched multi-agent evaluation pipeline of [analyzer.py]

    A shallow embedding of the evaluation core of [src/analyzer.py]
    (response parser, batch orchestrator, decision policy, progress store,
    intake filter, message splitting, evaluator client) and the properties
    the specification states about it.

    Conventions of the embedding.
    - A Python [str] is a list of Unicode code points ([N]), so that [len]
      is [length]; ASCII literals are written with [u "..."].
    - A Python exception is a value of [exn]; code that can raise returns
      a [result].
    - Values that come out of [json.loads] are terms of [json]; a Python
      [dict] is an association list in insertion order with unique keys.
    - Python floats are modelled by exact rationals ([Q]): sums, means and
      [round] are exact, so the rounding of binary doubles, infinities
      and [OverflowError] (an integer too large for a float) are outside
      the model.  The theorems whose statement mentions the value of a
      mean are about that exact arithmetic. *)

From Stdlib Require Import String Ascii List Bool Arith NArith ZArith QArith Qround Lia Lqa.
From Stdlib Require Import Permutation.
Import ListNotations.

Close Scope Q_scope.
Local Open Scope nat_scope.
Local Open Scope list_scope.

(* ------------------------------------------------------------------------- *)
(** * Python strings, exceptions *)
(* ------------------------------------------------------------------------- *)

Module Py.

Definition char := N.
Definition str := list char.

(** An ASCII literal as a Python string. *)
Definition u (s : string) : str := map N_of_ascii (list_ascii_of_string s).

(** The same, with every apostrophe read as a double quote (for JSON text). *)
Definition uq (s : string) : str :=
  map (fun c => if (c =? 39)%N then 34%N else c) (u s).

Definition char_eq_dec : forall a b : char, {a = b} + {a <> b} := N.eq_dec.
Definition str_eq_dec : forall a b : str, {a = b} + {a <> b} := list_eq_dec N.eq_dec.

Fixpoint str_eqb (a b : str) : bool :=
  match a, b with
  | [], [] => true
  | x :: a', y :: b' => N.eqb x y && str_eqb a' b'
  | _, _ => false
  end.

(** [s.startswith(p)] *)
Fixpoint startswith (s p : str) {struct p} : bool :=
  match p with
  | [] => true
  | c :: p' =>
      match s with
      | [] => false
      | d :: s' => N.eqb d c && startswith s' p'
      end
  end.

(** [s.endswith(p)] *)
Definition endswith (s p : str) : bool := startswith (rev s) (rev p).

(** [c.isspace()]: the code points Python's [str.strip()] removes. *)
Definition isspace (c : char) : bool :=
  ((9 <=? c) && (c <=? 13) || (28 <=? c) && (c <=? 32) || (c =? 133) || (c =? 160)
   || (c =? 5760) || (8192 <=? c) && (c <=? 8202) || (c =? 8232) || (c =? 8233)
   || (c =? 8239) || (c =? 8287) || (c =? 12288))%N.

Fixpoint lstrip (s : str) : str :=
  match s with
  | [] => []
  | c :: s' => if isspace c then lstrip s' else s
  end.

(** [s.strip()] *)
Definition strip (s : str) : str := rev (lstrip (rev (lstrip s))).

(** [s.split(sep)] for a non-empty separator: a left-to-right scan for
    non-overlapping occurrences.  [skip] counts the characters of a matched
    separator that are still to be passed over; [cur] is the piece being
    collected, reversed. *)
Fixpoint split_go (sep : str) (skip : nat) (cur : str) (s : str) : list str :=
  match s with
  | [] => [rev cur]
  | c :: s' =>
      match skip with
      | S k => split_go sep k cur s'
      | O =>
          if startswith s sep
          then rev cur :: split_go sep (length sep - 1) [] s'
          else split_go sep 0 (c :: cur) s'
      end
  end.

Definition split (s sep : str) : list str := split_go sep 0 [] s.

(** [sep.join(parts)] *)
Fixpoint join (sep : str) (parts : list str) : str :=
  match parts with
  | [] => []
  | [p] => p
  | p :: rest => p ++ sep ++ join sep rest
  end.

(** [p in s] for strings: [p] occurs in [s] as a substring. *)
Fixpoint contains (s p : str) : bool :=
  startswith s p ||
  match s with
  | [] => false
  | _ :: s' => contains s' p
  end.

(** Exceptions that the modelled code can raise. *)
Inductive exn :=
| AttributeError
| TypeError
| KeyError
| IndexError
| ValueError
| JSONDecodeError
| RecursionError
| UnicodeDecodeError
| HTTPError (status : Z)
| RequestException (detail : str).

Inductive result (A : Type) :=
| Ok (a : A)
| Raise (e : exn).
Arguments Ok {A} a.
Arguments Raise {A} e.

Definition bind {A B} (r : result A) (k : A -> result B) : result B :=
  match r with
  | Ok a => k a
  | Raise e => Raise e
  end.

(** [for x in xs: ys.append(f(x))], stopping at the first exception. *)
Fixpoint mapM {A B} (f : A -> result B) (xs : list A) : result (list B) :=
  match xs with
  | [] => Ok []
  | x :: xs' =>
      bind (f x) (fun y => bind (mapM f xs') (fun ys => Ok (y :: ys)))
  end.

End Py.
Import Py.

Notation "x <- c ;; k" := (bind c (fun x => k))
  (at level 61, c at next level, right associativity).

(* ------------------------------------------------------------------------- *)
(** * JSON values and Python dictionaries *)
(* ------------------------------------------------------------------------- *)

Module Json.

(** What [json.loads] produces: [None], [bool], [int], [float], [str],
    [list], [dict]. *)
#[warnings="-register-all"]
Inductive json :=
| JNull
| JBool (b : bool)
| JInt (z : Z)
| JFloat (q : Q)
| JStr (s : str)
| JList (l : list json)
| JDict (d : list (str * json)).

Definition dict (V : Type) := list (str * V).

(** [d.get(k)] *)
Fixpoint dict_get {V} (d : dict V) (k : str) : option V :=
  match d with
  | [] => None
  | (k', v) :: d' => if str_eqb k' k then Some v else dict_get d' k
  end.

(** [d[k] = v]: an existing key keeps its position, a new key goes last. *)
Fixpoint dict_set {V} (d : dict V) (k : str) (v : V) : dict V :=
  match d with
  | [] => [(k, v)]
  | (k', v') :: d' =>
      if str_eqb k' k then (k', v) :: d' else (k', v') :: dict_set d' k v
  end.

(** [x == s] for a string [s]: only a string equals a string. *)
Definition is_str (s : str) (x : json) : bool :=
  match x with
  | JStr t => str_eqb t s
  | _ => false
  end.

Definition keys {V} (d : dict V) : list str := map fst d.
Definition values {V} (d : dict V) : list V := map snd d.

(** ** A decoder for closed examples

    The theorems below hold for every decoder ([json.loads] is a parameter
    of the parser).  Concrete replies are decoded with [loads], built on
    [decode], a recursive-descent decoder for the JSON documents without
    exponents and without [\u] escapes: on such a document [loads] returns
    what [json.loads] returns, and raises [JSONDecodeError] where
    [json.loads] does. *)

Fixpoint skip_ws (s : str) : str :=
  match s with
  | c :: s' => if ((c =? 32) || (c =? 9) || (c =? 10) || (c =? 13))%N then skip_ws s' else s
  | [] => []
  end.

Definition is_digit (c : char) : bool := ((48 <=? c) && (c <=? 57))%N.

(** The digits at the head of [s]: their value, how many, and the rest. *)
Fixpoint digits (s : str) (acc : Z) (n : nat) : Z * nat * str :=
  match s with
  | c :: s' =>
      if is_digit c then digits s' (10 * acc + (Z.of_N c - 48))%Z (S n)
      else (acc, n, s)
  | [] => (acc, n, [])
  end.

Definition number (s : str) : option (json * str) :=
  let (neg, s1) := match s with
                   | c :: s' => if (c =? 45)%N then (true, s') else (false, s)
                   | [] => (false, s)
                   end in
  let '(ip, n, s2) := match s1 with
                      | c :: s' => if (c =? 48)%N then (0%Z, 1, s') else digits s1 0 0
                      | [] => (0%Z, 0, s1)
                      end in
  match n with
  | O => None
  | _ =>
      let sign (z : Z) := if neg then (- z)%Z else z in
      match s2 with
      | c :: s3 =>
          if (c =? 46)%N then
            let '(fp, k, s4) := digits s3 0 0 in
            match k with
            | O => None
            | _ => Some (JFloat (Qred (Qmake (sign (ip * 10 ^ Z.of_nat k + fp)%Z)
                                             (Z.to_pos (10 ^ Z.of_nat k)))), s4)
            end
          else Some (JInt (sign ip), s2)
      | [] => Some (JInt (sign ip), s2)
      end
  end.

(** The body of a string literal, after the opening quote. *)
Fixpoint string_body (s : str) (acc : str) : option (str * str) :=
  match s with
  | [] => None
  | c :: s' =>
      if (c =? 34)%N then Some (rev acc, s')
      else if (c =? 92)%N then
        match s' with
        | e :: s'' =>
            let esc (x : char) := string_body s'' (x :: acc) in
            if (e =? 34)%N then esc 34%N
            else if (e =? 92)%N then esc 92%N
            else if (e =? 47)%N then esc 47%N
            else if (e =? 98)%N then esc 8%N
            else if (e =? 102)%N then esc 12%N
            else if (e =? 110)%N then esc 10%N
            else if (e =? 114)%N then esc 13%N
            else if (e =? 116)%N then esc 9%N
            else None
        | [] => None
        end
      else if (c <? 32)%N then None
      else string_body s' (c :: acc)
  end.

Fixpoint value (fuel : nat) (s : str) : option (json * str) :=
  match fuel with
  | O => None
  | S fuel' =>
      let s := skip_ws s in
      if startswith s (u "null") then Some (JNull, skipn 4 s)
      else if startswith s (u "true") then Some (JBool true, skipn 4 s)
      else if startswith s (u "false") then Some (JBool false, skipn 5 s)
      else match s with
           | c :: r =>
               if (c =? 34)%N then
                 match string_body r [] with
                 | Some (k, r') => Some (JStr k, r')
                 | None => None
                 end
               else if (c =? 91)%N then
                 match skip_ws r with
                 | c' :: r' => if (c' =? 93)%N then Some (JList [], r')
                               else elements fuel' r []
                 | [] => None
                 end
               else if (c =? 123)%N then
                 match skip_ws r with
                 | c' :: r' => if (c' =? 125)%N then Some (JDict [], r')
                               else members fuel' r []
                 | [] => None
                 end
               else number s
           | [] => None
           end
  end
with elements (fuel : nat) (s : str) (acc : list json) : option (json * str) :=
  match fuel with
  | O => None
  | S fuel' =>
      match value fuel' s with
      | Some (v, r) =>
          match skip_ws r with
          | c :: r' =>
              if (c =? 44)%N then elements fuel' r' (v :: acc)
              else if (c =? 93)%N then Some (JList (rev (v :: acc)), r')
              else None
          | [] => None
          end
      | None => None
      end
  end
with members (fuel : nat) (s : str) (acc : dict json) : option (json * str) :=
  match fuel with
  | O => None
  | S fuel' =>
      match skip_ws s with
      | q :: r0 =>
          if (q =? 34)%N then
            match string_body r0 [] with
            | Some (k, r1) =>
                match skip_ws r1 with
                | c1 :: r2 =>
                    if (c1 =? 58)%N then
                      match value fuel' r2 with
                      | Some (v, r3) =>
                          match skip_ws r3 with
                          | c :: r' =>
                              if (c =? 44)%N then members fuel' r' (dict_set acc k v)
                              else if (c =? 125)%N then Some (JDict (dict_set acc k v), r')
                              else None
                          | [] => None
                          end
                      | None => None
                      end
                    else None
                | [] => None
                end
            | None => None
            end
          else None
      | [] => None
      end
  end.

Definition decode (s : str) : option json :=
  match value (2 * length s + 2) s with
  | Some (v, r) => match skip_ws r with [] => Some v | _ => None end
  | None => None
  end.

Definition loads (s : str) : result json :=
  match decode s with
  | Some v => Ok v
  | None => Raise JSONDecodeError
  end.

End Json.
Import Json.

(* ------------------------------------------------------------------------- *)
(** * Response parser: [parse_batch_votes] *)
(* ------------------------------------------------------------------------- *)

Module Parser.

Definition fence : str := u "```".

Definition YES : str := u "YES".
Definition NO : str := u "NO".
Definition UNCERTAIN : str := u "UNCERTAIN".

(** [x in ("YES", "NO", "UNCERTAIN")] for [x = v.get("vote")]: only a
    string equals a string. *)
Definition is_verdict (x : option json) : bool :=
  match x with
  | Some (JStr s) => str_eqb s YES || str_eqb s NO || str_eqb s UNCERTAIN
  | _ => false
  end.

(** Lines 231-237: strip, drop a leading code fence (with its [json] tag)
    and a trailing one.  [text.split(fence)[1]] is an [IndexError] when the
    split has a single piece. *)
Definition unfence (text : str) : result str :=
  let text := strip text in
  text <- (if startswith text fence
           then match nth_error (split text fence) 1 with
                | Some t => Ok (if startswith t (u "json") then skipn 4 t else t)
                | None => Raise IndexError
                end
           else Ok text) ;;
  Ok (if endswith text fence then firstn (length text - 3) text else text).

(** The padding vote of lines 253-258. *)
Definition missing_vote (num : nat) : json :=
  JDict [ (u "property_num", JInt (Z.of_nat num));
          (u "vote", JStr UNCERTAIN);
          (u "confidence", JFloat 0);
          (u "summary", JStr (u "No response from agent for this property")) ].

(** The vote of lines 265-270, returned for every item when decoding fails. *)
Definition parse_failure_vote (num : nat) : json :=
  JDict [ (u "property_num", JInt (Z.of_nat num));
          (u "vote", JStr UNCERTAIN);
          (u "confidence", JFloat 0);
          (u "summary", JStr (u "Failed to parse agent response")) ].

(** Loop body of lines 246-249.  [v.get] exists on a [dict] only: on any
    other decoded value it is an [AttributeError]. *)
Definition normalize (v : json) : result json :=
  match v with
  | JDict d =>
      Ok (JDict (if is_verdict (dict_get d (u "vote")) then d
                 else dict_set d (u "vote") (JStr UNCERTAIN)))
  | _ => Raise AttributeError
  end.

(** [while len(result) < expected_count: result.append(...)]; each turn adds
    one element, so [fuel] turns are enough when [fuel >= expected_count]. *)
Fixpoint pad (fuel : nat) (result : list json) (expected_count : nat) : list json :=
  match fuel with
  | O => result
  | S fuel' =>
      if length result <? expected_count
      then pad fuel' (result ++ [missing_vote (length result + 1)]) expected_count
      else result
  end.

(** [if not isinstance(votes, list): votes = [votes]] *)
Definition as_list (votes : json) : list json :=
  match votes with
  | JList l => l
  | _ => [votes]
  end.

Definition is_dict (v : json) : bool :=
  match v with
  | JDict _ => true
  | _ => false
  end.

(** A vote record whose verdict is one of the three values. *)
Definition valid_vote (v : json) : bool :=
  match v with
  | JDict d => is_verdict (dict_get d (u "vote"))
  | _ => false
  end.

(** The entry under ["confidence"], if any. *)
Definition confidence_entry (v : json) : option json :=
  match v with
  | JDict d => dict_get d (u "confidence")
  | _ => None
  end.

Section WithDecoder.

(** [json.loads]: the decoded value, or the exception it raises
    ([json.JSONDecodeError] on a malformed document; [RecursionError] on
    a document nested too deep and [ValueError] on an integer literal
    beyond the digit limit are raised on documents it would otherwise
    accept). *)
Variable json_loads : str -> result json.

(** [expected_count] is [len(batch)] at the only call site, hence a [nat]. *)
Definition parse_batch_votes (text : str) (expected_count : nat) : result (list json) :=
  text <- unfence text ;;
  match json_loads (strip text) with
  | Ok votes =>
      let votes := as_list votes in
      result <- mapM normalize votes ;;
      Ok (firstn expected_count (pad expected_count result expected_count))
  | Raise JSONDecodeError =>
      Ok (map (fun i => parse_failure_vote (i + 1)) (seq 0 expected_count))
  | Raise e => Raise e
  end.

End WithDecoder.

End Parser.

(* ------------------------------------------------------------------------- *)
(** * Batch orchestrator and decision policy: [evaluate_batch] *)
(* ------------------------------------------------------------------------- *)

Module Orchestrator.
Import Parser.

(** A persona of [agents.py]; its instruction text only flows into the
    request and is not modelled. *)
Record agent := { name : str }.

(** [AGENTS] of [agents.py], in order. *)
Definition AGENTS : list agent :=
  [ {| name := u "Financial Advisor" |};
    {| name := u "Barrio Scout" |};
    {| name := u "Building Inspector" |};
    {| name := u "Deal Shark" |} ].

(** A candidate listing, with the fields the core reads.  [prop.get(k, "")]
    of a missing key is the empty string. *)
Record prop := {
  id : str;
  scraped_at : str;
  address : str;
  title : str
}.

(** A vote map: persona name to vote. *)
Definition vote_map := dict json.

(** The vote of lines 306-311, synthesized when a persona's call fails.
    The summary carries the text of the exception, which is not modelled. *)
Definition agent_error_vote (num : nat) (e : exn) : json :=
  JDict [ (u "property_num", JInt (Z.of_nat num));
          (u "vote", JStr UNCERTAIN);
          (u "confidence", JFloat 0);
          (u "summary", JStr (u "Agent error")) ].

(** [all_votes[j][agent_name] = vote]; [all_votes] has the keys
    [0 .. len(batch)-1], another index is a [KeyError]. *)
Fixpoint set_vote (all_votes : list vote_map) (j : nat) (agent_name : str) (vote : json)
  : result (list vote_map) :=
  match all_votes, j with
  | [], _ => Raise KeyError
  | m :: rest, O => Ok (dict_set m agent_name vote :: rest)
  | m :: rest, S j' =>
      rest' <- set_vote rest j' agent_name vote ;; Ok (m :: rest')
  end.

(** [vote["vote"]] *)
Definition vote_of (vote : json) : result json :=
  match vote with
  | JDict d => match dict_get d (u "vote") with
               | Some x => Ok x
               | None => Raise KeyError
               end
  | _ => Raise TypeError
  end.

(** Lines 298-301: the loop of the [try] block.  It returns the accumulator
    as it stands when the loop ends or raises, with the exception if any. *)
Fixpoint store_votes (all_votes : list vote_map) (j : nat) (agent_name : str)
    (votes : list json) : list vote_map * option exn :=
  match votes with
  | [] => (all_votes, None)
  | vote :: votes' =>
      match set_vote all_votes j agent_name vote with
      | Raise e => (all_votes, Some e)
      | Ok all_votes' =>
          match vote_of vote with
          | Raise e => (all_votes', Some e)
          | Ok _ => store_votes all_votes' (S j) agent_name votes'
          end
      end
  end.

(** Lines 305-311: the [except] branch overwrites the persona's entry of
    every candidate of the batch. *)
Fixpoint store_errors (all_votes : list vote_map) (j : nat) (agent_name : str) (e : exn)
  : list vote_map :=
  match all_votes with
  | [] => []
  | m :: rest =>
      dict_set m agent_name (agent_error_vote (j + 1) e)
        :: store_errors rest (S j) agent_name e
  end.

(** [score_map.get(v["vote"], 0)]; a [list] or a [dict] is not hashable. *)
Definition score_of (x : json) : result Z :=
  match x with
  | JStr s => Ok (if str_eqb s YES then 2 else if str_eqb s UNCERTAIN then 1 else 0)%Z
  | JList _ | JDict _ => Raise TypeError
  | _ => Ok 0%Z
  end.

(** [vote_values.count(s)] *)
Definition count_votes (s : str) (vote_values : list json) : nat :=
  length (filter (is_str s) vote_values).

Inductive decision := SKIP | SEND.

(** Lines 324-329. *)
Definition decide (n_votes no_count yes_count : nat) : decision :=
  if (no_count =? n_votes) && (0 <? n_votes) then SKIP
  else if (3 <=? no_count) && (yes_count =? 0) then SKIP
  else SEND.

(** The value of a JSON number in a sum ([bool] is an [int] in Python);
    adding anything else to a number is a [TypeError].  The value is
    exact: an integer too large for a float, on which the code raises
    [OverflowError], is outside the model. *)
Definition number_of (x : json) : result Q :=
  match x with
  | JInt z => Ok (inject_Z z)
  | JFloat q => Ok q
  | JBool b => Ok (if b then 1%Q else 0%Q)
  | _ => Raise TypeError
  end.

(** [v.get("confidence", 0.5)] *)
Definition confidence_of (v : json) : result json :=
  match v with
  | JDict d => Ok (match dict_get d (u "confidence") with
                   | Some c => c
                   | None => JFloat (1 # 2)
                   end)
  | _ => Raise AttributeError
  end.

(** [sum(v.get("confidence", 0.5) for v in votes.values())], in exact
    arithmetic. *)
Fixpoint sum_confidence (vs : list json) (acc : Q) : result Q :=
  match vs with
  | [] => Ok acc
  | v :: vs' =>
      c <- confidence_of v ;;
      x <- number_of c ;;
      sum_confidence vs' (acc + x)%Q
  end.

(** [round(x, 2)] on the exact value: to the nearest hundredth, ties to
    even. *)
Definition round2 (x : Q) : Q :=
  let y := (x * 100)%Q in
  let f := Qfloor y in
  let r := (y - inject_Z f)%Q in
  let n := match (r ?= 1 # 2)%Q with
           | Lt => f
           | Gt => (f + 1)%Z
           | Eq => if Z.even f then f else (f + 1)%Z
           end in
  (inject_Z n / 100)%Q.

(** One entry of the list [evaluate_batch] returns (lines 335-344). *)
Record batch_result := {
  property_id : str;
  decision_ : decision;
  votes : vote_map;
  score : Z;
  yes_count : nat;
  no_count : nat;
  confidence_avg : Q;
  evaluated_at : str
}.

(** Lines 317-344 for one candidate. *)
Definition build_result (now : str) (p : prop) (votes : vote_map) : result batch_result :=
  vote_values <- mapM vote_of (values votes) ;;
  let no_count := count_votes NO vote_values in
  let yes_count := count_votes YES vote_values in
  let decision := decide (length votes) no_count yes_count in
  scores <- mapM score_of vote_values ;;
  let agent_score := fold_right Z.add 0%Z scores in
  total <- sum_confidence (values votes) 0%Q ;;
  let confidence_avg := (total / inject_Z (Z.of_nat (Nat.max (length votes) 1)))%Q in
  Ok {| property_id := id p;
        decision_ := decision;
        votes := votes;
        score := agent_score;
        yes_count := yes_count;
        no_count := no_count;
        confidence_avg := round2 confidence_avg;
        evaluated_at := now |}.

Fixpoint build_results (now : str) (batch : list prop) (all_votes : list vote_map)
  : result (list batch_result) :=
  match batch with
  | [] => Ok []
  | p :: batch' =>
      match all_votes with
      | [] => Raise KeyError
      | votes :: all_votes' =>
          r <- build_result now p votes ;;
          rs <- build_results now batch' all_votes' ;;
          Ok (r :: rs)
      end
  end.

Section WithEvaluator.

Variable json_loads : str -> result json.

(** [call_llm] as seen by one batch: the outcome of the request made for
    the persona at a given position of the list, a reply text or an
    exception. *)
Variable call_llm : nat -> result str.

(** The [try] block up to the parsed votes (lines 295-296), for the persona
    at position [k] and a batch of [n] candidates. *)
Definition attempt (n k : nat) : result (list json) :=
  raw <- call_llm k ;; parse_batch_votes json_loads raw n.

(** Body of the loop over the personas (lines 286-313). *)
Definition evaluate_agent (n : nat) (k : nat) (a : agent) (all_votes : list vote_map)
  : list vote_map :=
  match attempt n k with
  | Ok votes =>
      match store_votes all_votes 0 (name a) votes with
      | (all_votes', None) => all_votes'
      | (all_votes', Some e) => store_errors all_votes' 0 (name a) e
      end
  | Raise e => store_errors all_votes 0 (name a) e
  end.

Fixpoint collect_votes (n : nat) (k : nat) (agents : list agent) (all_votes : list vote_map)
  : list vote_map :=
  match agents with
  | [] => all_votes
  | a :: agents' => collect_votes n (S k) agents' (evaluate_agent n k a all_votes)
  end.

(** [evaluate_batch(batch)], with the persona list and the clock made
    explicit. *)
Definition evaluate_batch (agents : list agent) (now : str) (batch : list prop)
  : result (list batch_result) :=
  let all_votes := collect_votes (length batch) 0 agents (repeat [] (length batch)) in
  build_results now batch all_votes.

(** The votes the persona at position [k] ends up contributing, one per
    candidate: the parsed ones, or the synthesized ones when the attempt
    raised. *)
Definition agent_votes (n k : nat) : list json :=
  match attempt n k with
  | Ok votes => votes
  | Raise e => map (fun j => agent_error_vote (j + 1) e) (seq 0 n)
  end.

(** The vote map of candidate [i] once the personas at positions
    [k, k+1, ...] have been added to [m]. *)
Fixpoint zipped (n i k : nat) (agents : list agent) (m : vote_map) : vote_map :=
  match agents with
  | [] => m
  | a :: agents' =>
      zipped n i (S k) agents' (dict_set m (name a) (nth i (agent_votes n k) JNull))
  end.

End WithEvaluator.

(** [v["vote"] == s] *)
Definition has_verdict (s : str) (v : json) : bool :=
  match vote_of v with
  | Ok x => is_str s x
  | Raise _ => false
  end.

(** How many votes of the map have verdict [s]. *)
Definition count_verdict (s : str) (votes : vote_map) : nat :=
  length (filter (has_verdict s) (values votes)).

(** The confidence that enters the mean is a number. *)
Definition numeric_confidence (v : json) : bool :=
  match (c <- confidence_of v ;; number_of c) with
  | Ok _ => true
  | Raise _ => false
  end.

(** The confidence that enters the mean is a number of [[0,1]]. *)
Definition unit_confidence (v : json) : bool :=
  match (c <- confidence_of v ;; number_of c) with
  | Ok q => Qle_bool 0 q && Qle_bool q 1
  | Raise _ => false
  end.

End Orchestrator.

(* ------------------------------------------------------------------------- *)
(** * Progress store: [load_analyzed], [save_analyzed] *)
(* ------------------------------------------------------------------------- *)

Module Store.

(** The progress file [analyzed_properties.json], by what reading it gives.
    [json.dump] followed by [json.load] gives back the value written, so a
    file written by [save_analyzed] is the [Document] of that value. *)
Inductive file :=
| Missing                 (* [ANALYZED_FILE.exists()] is false *)
| Undecodable             (* bytes that are not text in the file's encoding:
                             [f.read()] raises [UnicodeDecodeError] *)
| NotJson                 (* text that [json.load] rejects: [JSONDecodeError] *)
| Document (v : json).    (* text that [json.load] decodes to [v] *)

Definition empty_record : json :=
  JDict [ (u "analyzed_ids", JList []);
          (u "results", JList []);
          (u "last_run", JStr []) ].

(** Lines 57-64.  Only [json.JSONDecodeError] is caught. *)
Definition load_analyzed (f : file) : result json :=
  match f with
  | Missing => Ok empty_record
  | Undecodable => Raise UnicodeDecodeError
  | NotJson => Ok empty_record
  | Document v => Ok v
  end.

(** Lines 67-70: [now] is [datetime.now().isoformat()].  Item assignment
    on a value that is not a [dict] is a [TypeError].  The write is taken
    to go through: the model has no failed and no partial write (the code
    opens the file for writing, which empties it, before [json.dump]
    serializes the value, so a value that cannot be written, or an I/O
    error, leaves an incomplete file behind). *)
Definition save_analyzed (now : str) (data : json) : result file :=
  match data with
  | JDict d => Ok (Document (JDict (dict_set d (u "last_run") (JStr now))))
  | _ => Raise TypeError
  end.

(** [save_analyzed(load_analyzed())] on a given file. *)
Definition save_load (now : str) (f : file) : result file :=
  data <- load_analyzed f ;; save_analyzed now data.

(** A dictionary without the key [k]. *)
Definition dict_without {V} (k : str) (d : dict V) : dict V :=
  filter (fun kv => negb (str_eqb (fst kv) k)) d.

End Store.

(* ------------------------------------------------------------------------- *)
(** * Intake filter: [get_unanalyzed], [is_blacklisted] *)
(* ------------------------------------------------------------------------- *)

Module Intake.
Import Orchestrator.

(** A [datetime]: a point of the time line in microseconds, without
    ([Naive]) or with ([Aware]) a UTC offset. *)
Inductive datetime :=
| Naive (t : Z)
| Aware (t : Z).

Definition DAYS_TO_ANALYZE : Z := 4.
Definition day : Z := 86400 * 1000000.

(** [id in analyzed_ids], for a set of decoded JSON values given as a list
    (order and repetition carry no meaning). *)
Definition id_in (i : str) (analyzed_ids : list json) : bool :=
  existsb (is_str i) analyzed_ids.

Section WithClock.

(** [datetime.fromisoformat]: [None] stands for [ValueError]. *)
Variable fromisoformat : str -> option datetime.

(** [datetime.now()], a naive datetime. *)
Variable now : Z.

(** Body of the loop of lines 76-86: [Ok true] when the candidate is
    appended.  Comparing an aware datetime with the naive cutoff is a
    [TypeError]. *)
Definition eligible (analyzed_ids : list json) (p : prop) : result bool :=
  let cutoff := (now - DAYS_TO_ANALYZE * day)%Z in
  if id_in (id p) analyzed_ids then Ok false
  else
    match scraped_at p with
    | [] => Ok true
    | _ =>
        match fromisoformat (scraped_at p) with
        | Some (Naive t) => Ok (negb (t <? cutoff)%Z)
        | Some (Aware _) => Raise TypeError
        | None => Ok true
        end
    end.

Fixpoint get_unanalyzed (properties : list prop) (analyzed_ids : list json)
  : result (list prop) :=
  match properties with
  | [] => Ok []
  | p :: rest =>
      keep <- eligible analyzed_ids p ;;
      filtered <- get_unanalyzed rest analyzed_ids ;;
      Ok (if keep then p :: filtered else filtered)
  end.

End WithClock.

(** ** A timestamp parser for closed examples

    [get_unanalyzed] is stated for every parser.  Concrete timestamps are
    read with [fromisoformat_basic], which accepts [YYYY-MM-DD] and
    [YYYY-MM-DD?HH:MM:SS] (what [isoformat()] writes, without fraction and
    offset) and gives the naive datetime in microseconds since 1970. *)

Fixpoint fixed_digits (n : nat) (s : str) (acc : Z) : option (Z * str) :=
  match n with
  | O => Some (acc, s)
  | S n' =>
      match s with
      | c :: s' =>
          if is_digit c then fixed_digits n' s' (10 * acc + (Z.of_N c - 48))%Z else None
      | [] => None
      end
  end.

Definition expect (c : char) (s : str) : option str :=
  match s with
  | d :: s' => if (d =? c)%N then Some s' else None
  | [] => None
  end.

Definition is_leap (y : Z) : bool :=
  ((y mod 4 =? 0) && (negb (y mod 100 =? 0) || (y mod 400 =? 0)))%Z.

Definition days_in_month (y m : Z) : Z :=
  if (m =? 2)%Z then (if is_leap y then 29 else 28)%Z
  else if ((m =? 4) || (m =? 6) || (m =? 9) || (m =? 11))%Z then 30%Z
  else 31%Z.

(** Days from 1970-01-01 to the given date of the Gregorian calendar. *)
Definition days_from_civil (y m d : Z) : Z :=
  let y' := (if m <=? 2 then y - 1 else y)%Z in
  let era := (y' / 400)%Z in
  let yoe := (y' - era * 400)%Z in
  let mp := ((m + 9) mod 12)%Z in
  let doy := ((153 * mp + 2) / 5 + d - 1)%Z in
  let doe := (yoe * 365 + yoe / 4 - yoe / 100 + doy)%Z in
  (era * 146097 + doe - 719468)%Z.

Definition fromisoformat_basic (s : str) : option datetime :=
  match fixed_digits 4 s 0 with
  | Some (y, s) =>
  match expect 45%N s with
  | Some s =>
  match fixed_digits 2 s 0 with
  | Some (m, s) =>
  match expect 45%N s with
  | Some s =>
  match fixed_digits 2 s 0 with
  | Some (d, s) =>
      if ((1 <=? y) && (1 <=? m) && (m <=? 12) && (1 <=? d) && (d <=? days_in_month y m))%Z
      then
        let date := (days_from_civil y m d * 86400)%Z in
        match s with
        | [] => Some (Naive (date * 1000000))
        | _ :: s =>
            match fixed_digits 2 s 0 with
            | Some (hh, s) =>
            match expect 58%N s with
            | Some s =>
            match fixed_digits 2 s 0 with
            | Some (mm, s) =>
            match expect 58%N s with
            | Some s =>
            match fixed_digits 2 s 0 with
            | Some (ss, []) =>
                if ((hh <? 24) && (mm <? 60) && (ss <? 60))%Z
                then Some (Naive ((date + hh * 3600 + mm * 60 + ss) * 1000000))
                else None
            | _ => None
            end
            | None => None
            end
            | None => None
            end
            | None => None
            end
            | None => None
            end
        end
      else None
  | None => None
  end
  | None => None
  end
  | None => None
  end
  | None => None
  end
  | None => None
  end.

(** [BLACKLISTED_ZONES] of [profile.py]. *)
Definition BLACKLISTED_ZONES : list str :=
  [ u "Raval"; u "El Raval";
    u "Poble Sec"; u "Poble-sec"; u "El Poble Sec"; u "El Poble-sec";
    u "G" ++ [243%N] ++ u "tico"; u "G" ++ [242%N] ++ u "tic";
    u "Barri G" ++ [242%N] ++ u "tic"; u "Barrio G" ++ [243%N] ++ u "tico" ].

(** Lower case of the letters of ASCII and Latin-1; other code points are
    left as they are. *)
Definition lower_latin1 (c : char) : char :=
  if ((65 <=? c) && (c <=? 90) || (192 <=? c) && (c <=? 222) && negb (c =? 215))%N
  then (c + 32)%N else c.

Section WithLower.

(** [str.lower()], as a map on characters. *)
Variable lower_char : char -> char.

Definition lower (s : str) : str := map lower_char s.

(** Lines 90-96. *)
Definition is_blacklisted_in (zones : list str) (p : prop) : bool :=
  let text := lower (address p ++ u " " ++ title p) in
  existsb (fun zone => contains text (lower zone)) zones.

Definition is_blacklisted : prop -> bool := is_blacklisted_in BLACKLISTED_ZONES.

End WithLower.

End Intake.

(* ------------------------------------------------------------------------- *)
(** * Report hand-off: [_split_message] *)
(* ------------------------------------------------------------------------- *)

Module Notify.

(** Two newlines, twelve U+2501, two newlines. *)
Definition separator : str := [10; 10]%N ++ repeat 9473%N 12 ++ [10; 10]%N.

Definition nonempty (s : str) : bool :=
  match s with [] => false | _ => true end.

(** The loop of lines 436-444, with its final [if current]. *)
Fixpoint pack (max_len : nat) (parts : list str) (current : str) (messages : list str)
  : list str :=
  match parts with
  | [] => if nonempty current then messages ++ [current] else messages
  | part :: parts' =>
      let candidate := if nonempty current then current ++ separator ++ part else part in
      if (max_len <? length candidate) && nonempty current
      then pack max_len parts' part (messages ++ [current])
      else pack max_len parts' candidate messages
  end.

Definition _split_message (text : str) (max_len : nat) : list str :=
  if length text <=? max_len then [text]
  else pack max_len (split text separator) [] [].

(** Lines 500-505: what [send_telegram] receives for one city.  Every part
    after the first gets the continuation header in front. *)
Fixpoint with_headers (continuation : str) (j : nat) (parts : list str) : list str :=
  match parts with
  | [] => []
  | part :: parts' =>
      (if 0 <? j then continuation ++ part else part)
        :: with_headers continuation (S j) parts'
  end.

Definition sent_chunks (continuation : str) (full_msg : str) : list str :=
  with_headers continuation 0 (_split_message full_msg 4096).

(** The label of Barcelona in [city_labels]. *)
Definition label_barcelona : str :=
  [1041; 1072; 1088; 1089; 1077; 1083; 1086; 1085; 1072]%N.

(** The continuation header of line 504 for a city label: two regional
    indicators, the label in bold, the Cyrillic abbreviation, a blank line. *)
Definition continuation (label : str) : str :=
  [127466; 127480]%N ++ u " <b>" ++ label ++ u "</b> ("
    ++ [1087; 1088; 1086; 1076]%N ++ u ".)" ++ [10; 10]%N.

(** U+2501, the character the separator is drawn with. *)
Definition bar : char := 9473%N.

(** An item block as the splitting step can tell it apart: not empty and
    without the separator's bar character. *)
Definition block_ok (b : str) : Prop := b <> [] /\ ~ In bar b.

(** A group of blocks that makes a chunk within the limit, or is a single
    block. *)
Definition fits_or_single (max_len : nat) (g : list str) : Prop :=
  length (join separator g) <= max_len \/ exists b, g = [b].

End Notify.

(* ------------------------------------------------------------------------- *)
(** * Evaluator client: [call_anthropic], [call_gemini], [call_llm] *)
(* ------------------------------------------------------------------------- *)

Module Client.

(** An HTTP response: its status code and what reading the reply text out
    of its body gives ([response.json()] and the indexing that follows).
    The value found there is taken to be a string, as the services
    document it; the code returns whatever value it finds. *)
Record response := { status_code : Z; text : result str }.

(** What [requests.post] does: it raises, or returns a response. *)
Inductive posted :=
| Failed (e : exn)
| Replied (r : response).

(** What the client does, in order. *)
Inductive event :=
| Post
| Sleep (seconds : Z).

(** [response.raise_for_status()] followed by the extraction of the text. *)
Definition finish (r : response) : result str :=
  if ((400 <=? status_code r) && (status_code r <? 600))%Z
  then Raise (HTTPError (status_code r))
  else text r.

(** What a request that is not retried gives the caller: its exception, the
    [HTTPError] of its status, or the text of the reply. *)
Definition done (o : posted) : result (option str) :=
  match o with
  | Failed e => Raise e
  | Replied r => x <- finish r ;; Ok (Some x)
  end.

Section WithNetwork.

(** The outcome of the i-th request of this call (from 0). *)
Variable post : nat -> posted.

(** The loop of lines 184-193 over the remaining values of [attempt];
    [None] is the implicit return when the loop runs out. *)
Fixpoint anthropic_loop (attempts : list nat) (trace : list event)
  : list event * result (option str) :=
  match attempts with
  | [] => (trace, Ok None)
  | attempt :: rest =>
      match post attempt with
      | Failed e => (trace ++ [Post], Raise e)
      | Replied r =>
          if (status_code r =? 529)%Z && (attempt <? 2)
          then anthropic_loop rest
                 (trace ++ [Post; Sleep (15 * (Z.of_nat attempt + 1))])
          else (trace ++ [Post], x <- finish r ;; Ok (Some x))
      end
  end.

(** [has_key]: [ANTHROPIC_API_KEY] is set. *)
Definition call_anthropic (has_key : bool) : list event * result (option str) :=
  if has_key then anthropic_loop (seq 0 3) []
  else ([], Raise ValueError).

(** Lines 196-217: one request. *)
Definition call_gemini (has_key : bool) : list event * result (option str) :=
  if has_key then
    match post 0 with
    | Failed e => ([Post], Raise e)
    | Replied r => ([Post], x <- finish r ;; Ok (Some x))
    end
  else ([], Raise ValueError).

Inductive provider := Anthropic | Gemini.

(** Lines 220-226, after [ANALYZER_PROVIDER.lower()] has been compared
    with ["anthropic"]. *)
Definition call_llm (p : provider) (has_key : bool) : list event * result (option str) :=
  match p with
  | Anthropic => call_anthropic has_key
  | Gemini => call_gemini has_key
  end.

End WithNetwork.

Definition posts (trace : list event) : nat :=
  length (filter (fun e => match e with Post => true | _ => false end) trace).


Definition overloaded (o : posted) : bool :=
  match o with
  | Replied r => (status_code r =? 529)%Z
  | Failed _ => false
  end.

End Client.

(* ------------------------------------------------------------------------- *)
(** * The run driver: [main] *)
(* ------------------------------------------------------------------------- *)

Module Run.
Import Parser Orchestrator Store Intake.

Definition BATCH_SIZE : nat := 5.

(** [data.get(k, default)] on a decoded value: only a [dict] has [get]. *)
Definition get_default (data : json) (k : str) (default : json) : result json :=
  match data with
  | JDict d => Ok (match dict_get d k with Some v => v | None => default end)
  | _ => Raise AttributeError
  end.

Definition unhashable (x : json) : bool :=
  match x with
  | JList _ | JDict _ => true
  | _ => false
  end.

(** [set(x)], as the list of its elements. *)
Definition py_set (x : json) : result (list json) :=
  match x with
  | JList l => if existsb unhashable l then Raise TypeError else Ok l
  | JStr s => Ok (map (fun c => JStr [c]) s)
  | JDict d => Ok (map JStr (keys d))
  | _ => Raise TypeError
  end.

(** [analyzed_ids.add(i)] *)
Definition set_add (analyzed_ids : list json) (i : str) : list json :=
  if id_in i analyzed_ids then analyzed_ids else analyzed_ids ++ [JStr i].

(** [all_results.append(x)]: only a [list] has [append]. *)
Definition append (all_results : json) (x : json) : result json :=
  match all_results with
  | JList l => Ok (JList (l ++ [x]))
  | _ => Raise AttributeError
  end.

Definition decision_str (d : decision) : str :=
  match d with SKIP => u "SKIP" | SEND => u "SEND" end.

(** The dictionary of lines 335-344. *)
Definition result_json (r : batch_result) : json :=
  JDict [ (u "property_id", JStr (property_id r));
          (u "decision", JStr (decision_str (decision_ r)));
          (u "votes", JDict (votes r));
          (u "score", JInt (score r));
          (u "yes_count", JInt (Z.of_nat (yes_count r)));
          (u "no_count", JInt (Z.of_nat (no_count r)));
          (u "confidence_avg", JFloat (confidence_avg r));
          (u "evaluated_at", JStr (evaluated_at r)) ].

(** [to_analyze[0:5], to_analyze[5:10], ...]; [fuel] bounds the number of
    batches, [length to_analyze] is enough. *)
Fixpoint batches (fuel : nat) (to_analyze : list prop) : list (list prop) :=
  match fuel with
  | O => []
  | S fuel' =>
      match to_analyze with
      | [] => []
      | _ => firstn BATCH_SIZE to_analyze :: batches fuel' (skipn BATCH_SIZE to_analyze)
      end
  end.

(** What a run leaves behind: the progress file, the in-memory set of
    evaluated ids, the batches handed to [evaluate_batch], and the exception
    that ended the run, if any. *)
Record outcome := {
  file_after : file;
  ids_after : list json;
  evaluated : list (list prop);
  aborted : option exn
}.

Section WithWorld.

Variable json_loads : str -> result json.
Variable fromisoformat : str -> option datetime.
Variable lower_char : char -> char.

(** The clock: [datetime.now()] and its [isoformat()]. *)
Variable now : Z.
Variable now_iso : str.

(** The evaluator service: the outcome of the request of batch [b] for the
    persona at position [k]. *)
Variable call_llm : nat -> nat -> result str.

(** Lines 569-571: the bookkeeping for the results of one batch. *)
Fixpoint record_results (results : list batch_result) (all_results : json)
    (analyzed_ids : list json) : result (json * list json) :=
  match results with
  | [] => Ok (all_results, analyzed_ids)
  | r :: results' =>
      all_results' <- append all_results (result_json r) ;;
      record_results results' all_results' (set_add analyzed_ids (property_id r))
  end.

(** Lines 559-582: the loop over the batches. *)
Fixpoint run_batches (bs : list (list prop)) (b : nat) (f : file) (all_results : json)
    (analyzed_ids : list json) (done : list (list prop)) : outcome :=
  match bs with
  | [] => {| file_after := f; ids_after := analyzed_ids;
             evaluated := done; aborted := None |}
  | batch :: bs' =>
      let stop e := {| file_after := f; ids_after := analyzed_ids;
                       evaluated := done ++ [batch]; aborted := Some e |} in
      match evaluate_batch json_loads (call_llm b) AGENTS now_iso batch with
      | Raise e => stop e
      | Ok results =>
          match record_results results all_results analyzed_ids with
          | Raise e => stop e
          | Ok (all_results', analyzed_ids') =>
              match save_analyzed now_iso
                      (JDict [ (u "analyzed_ids", JList analyzed_ids');
                               (u "results", all_results') ]) with
              | Raise e => stop e
              | Ok f' => run_batches bs' (S b) f' all_results' analyzed_ids'
                           (done ++ [batch])
              end
          end
      end
  end.

(** The evaluated ids a run starts from (lines 527-528). *)
Definition loaded_ids (f : file) : result (list json) :=
  analyzed_data <- load_analyzed f ;;
  x <- get_default analyzed_data (u "analyzed_ids") (JList []) ;;
  py_set x.

(** The candidates [get_unanalyzed] gives a run that starts from the
    progress file [f] (line 533). *)
Definition eligible_at_start (properties : list prop) (f : file) : result (list prop) :=
  analyzed_ids <- loaded_ids f ;;
  get_unanalyzed fromisoformat now properties analyzed_ids.

(** [main()], for a given history of candidates and progress file;
    [configured] says that the key of the selected provider is set.  The
    notifications that follow the loop are not part of this model. *)
Definition main (configured : bool) (properties : list prop) (f : file) : outcome :=
  let stop ids e := {| file_after := f; ids_after := ids;
                       evaluated := []; aborted := e |} in
  if negb configured then stop [] None
  else
    match load_analyzed f with
    | Raise e => stop [] (Some e)
    | Ok analyzed_data =>
        match (x <- get_default analyzed_data (u "analyzed_ids") (JList []) ;; py_set x) with
        | Raise e => stop [] (Some e)
        | Ok analyzed_ids =>
            match get_default analyzed_data (u "results") (JList []) with
            | Raise e => stop analyzed_ids (Some e)
            | Ok all_results =>
                match get_unanalyzed fromisoformat now properties analyzed_ids with
                | Raise e => stop analyzed_ids (Some e)
                | Ok to_analyze =>
                    let blacklisted := filter (is_blacklisted lower_char) to_analyze in
                    let to_analyze :=
                      filter (fun p => negb (is_blacklisted lower_char p)) to_analyze in
                    let analyzed_ids :=
                      fold_left (fun ids p => set_add ids (id p)) blacklisted analyzed_ids in
                    match to_analyze with
                    | [] => stop analyzed_ids None
                    | _ => run_batches (batches (length to_analyze) to_analyze) 0 f
                             all_results analyzed_ids []
                    end
                end
            end
        end
    end.

End WithWorld.

End Run.

(* ------------------------------------------------------------------------- *)
(** * Sample inputs *)
(* ------------------------------------------------------------------------- *)

Module Samples.
Import Orchestrator.

(** 2026-02-14 09:30:00, in microseconds since 1970. *)
Definition now : Z := 1771061400000000.

(** A candidate of the day before, in a blacklisted zone. *)
Definition in_raval : prop :=
  {| id := u "a1"; scraped_at := u "2026-02-13T08:00:00";
     address := u "Carrer del RAVAL 12"; title := u "Piso reformado" |}.

(** A candidate of the day before, in no blacklisted zone. *)
Definition in_sants : prop :=
  {| id := u "q1"; scraped_at := u "2026-02-13T08:00:00";
     address := u "Carrer de Sants 10"; title := u "Piso" |}.

(** An evaluator service that fails every request. *)
Definition service_down : nat -> nat -> result str :=
  fun _ _ => Raise (RequestException (u "timeout")).

(** A reply that gives the only candidate of a batch a confidence of 5. *)
Definition overconfident_reply : str := uq "[{'vote':'YES','confidence':5}]".

End Samples.

(* ------------------------------------------------------------------------- *)
(** * More sample inputs *)
(* ------------------------------------------------------------------------- *)

Module Cases.
Import Orchestrator.

(** A history of one blacklisted and one ordinary candidate, and the run
    over it while the evaluator service is down. *)
Definition history : list prop := [Samples.in_raval; Samples.in_sants].

Definition quiet_run : Run.outcome :=
  Run.main Json.loads Intake.fromisoformat_basic Intake.lower_latin1 Samples.now
    (u "2026-02-14T09:30:00") Samples.service_down true history Store.Missing.

(** A service that is overloaded twice and then replies. *)
Definition busy_twice : nat -> Client.posted :=
  fun i => if i <? 2
           then Client.Replied {| Client.status_code := 529;
                                  Client.text := Raise KeyError |}
           else Client.Replied {| Client.status_code := 200;
                                  Client.text := Ok (u "[]") |}.

End Cases.

(* ------------------------------------------------------------------------- *)
(** * Report rendering: [_vote_bar] *)
(* ------------------------------------------------------------------------- *)

Module Render.
Import Parser Orchestrator.

Definition check_mark : char := 9989%N.      (* U+2705 *)
Definition cross_mark : char := 10060%N.     (* U+274C *)
Definition question_mark : char := 10067%N.  (* U+2753 *)

(** [{"YES": ..., "NO": ..., "UNCERTAIN": ...}.get(v, question)]: a [list]
    or a [dict] is not hashable. *)
Definition mark_of (v : json) : result char :=
  match v with
  | JStr s => Ok (if str_eqb s YES then check_mark
                  else if str_eqb s NO then cross_mark
                  else question_mark)
  | JList _ | JDict _ => Raise TypeError
  | _ => Ok question_mark
  end.

(** [votes.get(agent["name"], {}).get("vote", "UNCERTAIN")]: the entry of
    the persona must be a [dict]. *)
Definition shown_vote (votes : vote_map) (a : agent) : result json :=
  match dict_get votes (name a) with
  | None => Ok (JStr UNCERTAIN)
  | Some (JDict d) => Ok (match dict_get d (u "vote") with
                          | Some v => v
                          | None => JStr UNCERTAIN
                          end)
  | Some _ => Raise AttributeError
  end.

(** Lines 384-389, with the persona list made explicit. *)
Definition _vote_bar (agents : list agent) (votes : vote_map) : result str :=
  mapM (fun a => v <- shown_vote votes a ;; mark_of v) agents.

Definition count_char (c : char) (s : str) : nat :=
  length (filter (fun x => (x =? c)%N) s).

End Render.

(* ------------------------------------------------------------------------- *)
(** * Shapes of results, for the statements below *)
(* ------------------------------------------------------------------------- *)

Module Shapes.
Import Parser Notify.

(** A grouping of blocks into chunks is greedy when each chunk was closed
    only because the first block of the next chunk did not fit with it. *)
Fixpoint greedy (max_len : nat) (groups : list (list str)) : Prop :=
  match groups with
  | g :: rest =>
      match rest with
      | (b :: _) :: _ => max_len < length (join separator g ++ separator ++ b)
      | _ => True
      end /\ greedy max_len rest
  | [] => True
  end.

(** The sum of a list of seconds. *)
Definition total (l : list Z) : Z := fold_right Z.add 0%Z l.

(** What the validation of the parser does to a decoded object: nothing
    but the verdict changes, and only when it is not a valid one. *)
Definition only_verdict_changed (v v' : json) : Prop :=
  exists d d',
    v = JDict d /\ v' = JDict d'
    /\ (forall k, k <> u "vote" -> dict_get d' k = dict_get d k)
    /\ (is_verdict (dict_get d (u "vote")) = true -> d' = d)
    /\ (is_verdict (dict_get d (u "vote")) = false ->
        dict_get d' (u "vote") = Some (JStr UNCERTAIN)).

End Shapes.

(* ========================================================================= *)
(** * Properties *)
(* ========================================================================= *)

(** ** Strings and dictionaries *)

Module PyFacts.

Lemma str_eqb_eq (a b : str) : str_eqb a b = true <-> a = b.
Proof.
  revert b; induction a as [|x a IH]; intros [|y b]; simpl;
    try (split; [discriminate | discriminate]); try tauto.
  rewrite andb_true_iff, N.eqb_eq, IH.
  split; [intros [-> ->]; reflexivity | intros H; inversion H; auto].
Qed.

Lemma str_eqb_refl (a : str) : str_eqb a a = true.
Proof. apply str_eqb_eq; reflexivity. Qed.

Lemma str_eqb_neq (a b : str) : str_eqb a b = false <-> a <> b.
Proof.
  rewrite <- str_eqb_eq. destruct (str_eqb a b); split; congruence.
Qed.

Lemma startswith_app (s p : str) :
  startswith s p = true <-> exists r, s = p ++ r.
Proof.
  revert s; induction p as [|c p IH]; intros s; simpl.
  - split; [intros _; exists s; reflexivity | reflexivity].
  - destruct s as [|d s].
    + split; [discriminate | intros [r H]; discriminate].
    + rewrite andb_true_iff, N.eqb_eq, IH. split.
      * intros [-> [r ->]]. exists r; reflexivity.
      * intros [r H]. inversion H; subst. split; eauto.
Qed.

Lemma split_go_not_nil sep k cur s : split_go sep k cur s <> [].
Proof.
  revert k cur; induction s as [|c s IH]; intros k cur; simpl.
  - discriminate.
  - destruct k; [|apply IH].
    destruct (startswith (c :: s) sep); [discriminate | apply IH].
Qed.

(** Passing over the rest of a matched separator. *)
Lemma split_go_skip sep t cur s :
  split_go sep (length t) cur (t ++ s) = split_go sep 0 cur s.
Proof.
  induction t as [|c t IH]; simpl; [reflexivity | exact IH].
Qed.

(** One step of the scan, for a non-empty separator. *)
Lemma split_go_match sep cur r :
  sep <> [] ->
  split_go sep 0 cur (sep ++ r) = rev cur :: split_go sep 0 [] r.
Proof.
  intros Hsep. destruct sep as [|a sep]; [congruence|].
  change ((a :: sep) ++ r) with (a :: (sep ++ r)).
  cbn [split_go].
  replace (startswith (a :: sep ++ r) (a :: sep)) with true.
  2:{ symmetry. apply startswith_app. exists r. reflexivity. }
  f_equal. replace (length (a :: sep) - 1) with (length sep) by (simpl; lia).
  apply split_go_skip.
Qed.

Lemma split_go_nomatch sep cur c s :
  startswith (c :: s) sep = false ->
  split_go sep 0 cur (c :: s) = split_go sep 0 (c :: cur) s.
Proof. intros H. cbn [split_go]. rewrite H. reflexivity. Qed.

Lemma join_cons sep p rest :
  rest <> [] -> join sep (p :: rest) = p ++ sep ++ join sep rest.
Proof. destruct rest; [congruence | reflexivity]. Qed.

(** Joining the pieces of a split gives the text back. *)
Lemma join_split_go sep :
  sep <> [] ->
  forall n s cur, length s <= n ->
    join sep (split_go sep 0 cur s) = rev cur ++ s.
Proof.
  intros Hsep. induction n as [|n IH]; intros s cur Hn.
  - destruct s; [|simpl in Hn; lia]. simpl. rewrite app_nil_r. reflexivity.
  - destruct s as [|c s]; [simpl; rewrite app_nil_r; reflexivity|].
    destruct (startswith (c :: s) sep) eqn:E.
    + apply startswith_app in E. destruct E as [r E]. rewrite E.
      rewrite split_go_match by assumption.
      rewrite join_cons by apply split_go_not_nil.
      rewrite IH; [reflexivity|].
      assert (length (c :: s) = length sep + length r)
        by (rewrite E, length_app; reflexivity).
      destruct sep; [congruence|]. simpl in *. lia.
    + rewrite split_go_nomatch by assumption.
      rewrite IH by (simpl in Hn; lia).
      simpl. rewrite <- app_assoc. reflexivity.
Qed.

Lemma join_split sep s : sep <> [] -> join sep (split s sep) = s.
Proof.
  intros H. unfold split. rewrite (join_split_go sep H (length s)); auto.
Qed.

(** A text that starts with the separator splits into at least two pieces. *)
Lemma split_startswith s sep :
  sep <> [] -> startswith s sep = true ->
  exists t, nth_error (split s sep) 1 = Some t.
Proof.
  intros Hsep H. apply startswith_app in H. destruct H as [r ->].
  unfold split. rewrite split_go_match by assumption.
  destruct (split_go sep 0 [] r) as [|t l] eqn:E.
  - exfalso. exact (split_go_not_nil _ _ _ _ E).
  - exists t. reflexivity.
Qed.

Lemma contains_iff (s p : str) :
  contains s p = true <-> exists a b, s = a ++ p ++ b.
Proof.
  induction s as [|c s IH]; simpl.
  - rewrite orb_false_r, startswith_app. split.
    + intros [r H]. exists [], r. exact H.
    + intros [a [b H]]. destruct a; simpl in H.
      * exists b. exact H.
      * discriminate.
  - rewrite orb_true_iff, startswith_app, IH. split.
    + intros [[r H] | [a [b H]]].
      * exists [], r. exact H.
      * exists (c :: a), b. rewrite H. reflexivity.
    + intros [a [b H]]. destruct a as [|x a]; simpl in H.
      * left. exists b. exact H.
      * right. inversion H. exists a, b. reflexivity.
Qed.

Lemma dict_get_set_same {V} (d : dict V) k v :
  dict_get (dict_set d k v) k = Some v.
Proof.
  induction d as [|[k' v'] d IH]; simpl.
  - rewrite str_eqb_refl. reflexivity.
  - destruct (str_eqb k' k) eqn:E; simpl; rewrite E; auto.
Qed.

Lemma dict_get_set_other {V} (d : dict V) k k2 v :
  k <> k2 -> dict_get (dict_set d k v) k2 = dict_get d k2.
Proof.
  intros Hne. induction d as [|[k' v'] d IH]; simpl.
  - apply str_eqb_neq in Hne. rewrite Hne. reflexivity.
  - destruct (str_eqb k' k) eqn:E; simpl.
    + apply str_eqb_eq in E. subst k'.
      apply str_eqb_neq in Hne. rewrite Hne. reflexivity.
    + destruct (str_eqb k' k2); auto.
Qed.

Lemma length_dict_set_in {V} (d : dict V) k v :
  In k (keys d) -> length (dict_set d k v) = length d.
Proof.
  induction d as [|[k' v'] d IH]; simpl; [tauto|].
  intros H. destruct (str_eqb k' k) eqn:E; simpl; [reflexivity|].
  f_equal. apply IH. destruct H as [H|H]; [|exact H].
  apply str_eqb_neq in E. congruence.
Qed.

(** The keys after an assignment: unchanged for a key already there, one
    more at the end otherwise. *)
Lemma keys_dict_set {V} (d : dict V) k v :
  keys (dict_set d k v) = if existsb (str_eqb k) (keys d) then keys d else keys d ++ [k].
Proof.
  induction d as [|[k' v'] d IH]; simpl; [reflexivity|].
  destruct (str_eqb k' k) eqn:E; simpl.
  - apply str_eqb_eq in E. subst. rewrite str_eqb_refl. reflexivity.
  - replace (str_eqb k k') with false.
    2:{ symmetry. apply str_eqb_neq. apply str_eqb_neq in E. congruence. }
    simpl. rewrite IH. destruct (existsb (str_eqb k) (keys d)); reflexivity.
Qed.

End PyFacts.

(** ** Response parser *)

Module ParserFacts.
Import PyFacts Parser.

Lemma fence_not_nil : fence <> [].
Proof. discriminate. Qed.

(** The preprocessing of the reply never raises. *)
Lemma unfence_ok text : exists t, unfence text = Ok t.
Proof.
  unfold unfence.
  destruct (startswith (strip text) fence) eqn:E.
  - destruct (split_startswith (strip text) fence fence_not_nil E) as [t Ht].
    rewrite Ht. cbn [bind]. eauto.
  - cbn [bind]. eauto.
Qed.

Lemma valid_missing_vote k : valid_vote (missing_vote k) = true.
Proof. reflexivity. Qed.

Lemma valid_parse_failure_vote k : valid_vote (parse_failure_vote k) = true.
Proof. reflexivity. Qed.

Lemma normalize_dict d :
  exists d', normalize (JDict d) = Ok (JDict d')
             /\ valid_vote (JDict d') = true
             /\ dict_get d' (u "confidence") = dict_get d (u "confidence").
Proof.
  unfold normalize.
  destruct (is_verdict (dict_get d (u "vote"))) eqn:E.
  - exists d. auto.
  - exists (dict_set d (u "vote") (JStr UNCERTAIN)). split; [reflexivity|]. split.
    + simpl. rewrite dict_get_set_same. reflexivity.
    + apply dict_get_set_other. discriminate.
Qed.

Lemma normalize_not_dict v : is_dict v = false -> normalize v = Raise AttributeError.
Proof. destruct v; simpl; congruence. Qed.

(** The validation loop on a list of objects: same length, every verdict
    valid, every confidence entry as decoded. *)
Lemma mapM_normalize_dicts l :
  forallb is_dict l = true ->
  exists l', mapM normalize l = Ok l'
             /\ Forall2 (fun v v' => valid_vote v' = true
                                      /\ confidence_entry v' = confidence_entry v) l l'.
Proof.
  induction l as [|v l IH]; intros H.
  - exists []. split; [reflexivity | constructor].
  - simpl in H. apply andb_true_iff in H. destruct H as [Hv Hl].
    destruct v; try discriminate.
    destruct (normalize_dict d) as [d' [E [Hvalid Hconf]]].
    destruct (IH Hl) as [l' [El HF]].
    exists (JDict d' :: l'). split.
    + cbn [mapM]. rewrite E. cbn [bind]. rewrite El. reflexivity.
    + constructor; [split; assumption | assumption].
Qed.

(** The validation loop raises at the first element that is not an object. *)
Lemma mapM_normalize_other l :
  forallb is_dict l = false -> mapM normalize l = Raise AttributeError.
Proof.
  induction l as [|v l IH]; intros H; [discriminate|].
  simpl in H. apply andb_false_iff in H.
  destruct (is_dict v) eqn:Ev.
  - destruct H as [H|H]; [discriminate|].
    destruct v; try discriminate.
    destruct (normalize_dict d) as [d' [E _]].
    cbn [mapM]. rewrite E. cbn [bind]. rewrite (IH H). reflexivity.
  - cbn [mapM]. rewrite (normalize_not_dict _ Ev). reflexivity.
Qed.

(** The padding loop ends with its condition false, and only appends
    padding votes numbered by their position. *)
Lemma pad_spec fuel : forall l n,
  n <= length l + fuel ->
  exists k, pad fuel l n = l ++ map (fun i => missing_vote (i + 1)) (seq (length l) k)
            /\ length l + k = Nat.max (length l) n.
Proof.
  induction fuel as [|fuel IH]; intros l n H; simpl.
  - exists 0. simpl. rewrite app_nil_r. split; [reflexivity | lia].
  - destruct (Nat.ltb_spec (length l) n) as [Hlt|Hge].
    + destruct (IH (l ++ [missing_vote (length l + 1)]) n) as [k [E Hk]].
      { rewrite length_app. simpl. lia. }
      exists (S k). rewrite E. rewrite length_app in *. simpl in *.
      rewrite <- app_assoc. simpl.
      replace (length l + 1) with (S (length l)) in * by lia.
      split; [reflexivity | lia].
    + exists 0. simpl. rewrite app_nil_r. split; [reflexivity | lia].
Qed.

Lemma forallb_firstn {A} (f : A -> bool) n l :
  forallb f l = true -> forallb f (firstn n l) = true.
Proof.
  revert l; induction n as [|n IH]; intros [|x l]; simpl; auto.
  rewrite !andb_true_iff. intros [Hx Hl]. auto.
Qed.

(** What is returned after a successful decode to objects. *)
Lemma padded_votes l' n :
  forallb valid_vote l' = true ->
  length (firstn n (pad n l' n)) = n
  /\ forallb valid_vote (firstn n (pad n l' n)) = true.
Proof.
  intros Hv. destruct (pad_spec n l' n) as [k [E Hk]]; [lia|].
  split.
  - rewrite length_firstn, E, length_app, length_map, length_seq. lia.
  - apply forallb_firstn. rewrite E, forallb_app, Hv. simpl.
    apply forallb_forall. intros x Hx. apply in_map_iff in Hx.
    destruct Hx as [i [<- _]]. reflexivity.
Qed.

Lemma Forall2_valid l l' :
  Forall2 (fun v v' : json => valid_vote v' = true
                              /\ confidence_entry v' = confidence_entry v) l l' ->
  forallb valid_vote l' = true.
Proof.
  induction 1 as [|v v' l l' [Hv _] _ IH]; simpl; [reflexivity|].
  rewrite Hv, IH. reflexivity.
Qed.

Lemma Forall2_nth_error {A B} (R : A -> B -> Prop) l l' :
  Forall2 R l l' ->
  forall i y, nth_error l' i = Some y -> exists x, nth_error l i = Some x /\ R x y.
Proof.
  induction 1 as [|x y l l' HR _ IH]; intros [|i] z Hz; simpl in *; try discriminate.
  - inversion Hz; subst. eauto.
  - eauto.
Qed.

Lemma nth_error_synthetic (f : nat -> json) start len i vote :
  nth_error (map (fun j => f (j + 1)) (seq start len)) i = Some vote ->
  vote = f (start + i + 1).
Proof.
  rewrite nth_error_map, nth_error_seq.
  destruct (i <? len); simpl; congruence.
Qed.

Section Spec.

Variable json_loads : str -> result json.

(** Where a returned vote comes from: it is a synthesized vote numbered by
    its position, or the normalized element of the decoded reply at that
    position, with the confidence entry of that element. *)
Lemma parse_batch_votes_origin raw n votes i vote :
  parse_batch_votes json_loads raw n = Ok votes ->
  nth_error votes i = Some vote ->
  (vote = missing_vote (i + 1) \/ vote = parse_failure_vote (i + 1))
  \/ exists t v x,
       unfence raw = Ok t /\ json_loads (strip t) = Ok v
       /\ nth_error (as_list v) i = Some x
       /\ confidence_entry vote = confidence_entry x.
Proof.
  destruct (unfence_ok raw) as [t Ht].
  unfold parse_batch_votes. rewrite Ht. cbn [bind].
  destruct (json_loads (strip t)) as [v|e] eqn:Ev.
  - destruct (forallb is_dict (as_list v)) eqn:E.
    + destruct (mapM_normalize_dicts _ E) as [l' [El HF]].
      rewrite El. cbn [bind]. intros H Hi. inversion H; subst; clear H.
      rewrite nth_error_firstn in Hi. destruct (i <? n); [|discriminate].
      destruct (pad_spec n l' n) as [k [Ep Hk]]; [lia|]. rewrite Ep in Hi.
      rewrite nth_error_app in Hi. destruct (Nat.ltb_spec i (length l')) as [Hlt|Hge].
      * right. destruct (Forall2_nth_error _ _ _ HF i vote Hi) as [x [Hx [_ Hc]]].
        exists t, v, x. auto.
      * left. left. apply nth_error_synthetic in Hi. rewrite Hi. f_equal. lia.
    + rewrite (mapM_normalize_other _ E). discriminate.
  - destruct e; try discriminate. intros H Hi. inversion H; subst; clear H.
    left. right. apply nth_error_synthetic in Hi. exact Hi.
Qed.

(** Whenever the parser returns, it returns [n] votes with valid verdicts. *)
Lemma parse_batch_votes_returns raw n votes :
  parse_batch_votes json_loads raw n = Ok votes ->
  length votes = n /\ forallb valid_vote votes = true.
Proof.
  destruct (unfence_ok raw) as [t Ht].
  unfold parse_batch_votes. rewrite Ht. cbn [bind]. intros H.
  destruct (json_loads (strip t)) as [v|e].
  - destruct (forallb is_dict (as_list v)) eqn:E.
    + destruct (mapM_normalize_dicts _ E) as [l' [El HF]].
      rewrite El in H. cbn [bind] in H. inversion H; subst.
      apply padded_votes. exact (Forall2_valid _ _ HF).
    + rewrite (mapM_normalize_other _ E) in H. discriminate.
  - destruct e; try discriminate. inversion H; subst. split.
    + rewrite length_map, length_seq. reflexivity.
    + apply forallb_forall. intros x Hx. apply in_map_iff in Hx.
      destruct Hx as [i [<- _]]. reflexivity.
Qed.

(** C1 (amended): [parse_batch_votes(raw, n)] returns exactly [n] vote
    records, each with a verdict among YES, NO and UNCERTAIN, whenever
    [json.loads] raises [JSONDecodeError] on the reply (then the [n] votes
    are the synthetic UNCERTAIN parse-failure votes) or the reply decodes
    to an object or a list of objects.  Any other exception of
    [json.loads] leaves the parser as it is, and when some decoded element
    is not an object the parser raises [AttributeError].  Whenever it
    returns, it returns [n] such votes. *)
Theorem parse_batch_votes_spec (raw : str) (n : nat) :
  (exists t, unfence raw = Ok t /\
     match json_loads (strip t) with
     | Raise JSONDecodeError =>
         parse_batch_votes json_loads raw n
         = Ok (map (fun i => parse_failure_vote (i + 1)) (seq 0 n))
     | Raise e => parse_batch_votes json_loads raw n = Raise e
     | Ok v =>
         if forallb is_dict (as_list v)
         then exists votes, parse_batch_votes json_loads raw n = Ok votes
         else parse_batch_votes json_loads raw n = Raise AttributeError
     end)
  /\ (forall votes, parse_batch_votes json_loads raw n = Ok votes ->
        length votes = n /\ forallb valid_vote votes = true).
Proof.
  split; [|apply parse_batch_votes_returns].
  destruct (unfence_ok raw) as [t Ht].
  unfold parse_batch_votes. rewrite Ht. cbn [bind].
  exists t. split; [reflexivity|].
  destruct (json_loads (strip t)) as [v|e]; [|destruct e; reflexivity].
  destruct (forallb is_dict (as_list v)) eqn:E.
  - destruct (mapM_normalize_dicts _ E) as [l' [El _]].
    rewrite El. cbn [bind]. eauto.
  - rewrite (mapM_normalize_other _ E). reflexivity.
Qed.

End Spec.

(** C1 as stated fails: the reply [[1]] decodes, and the validation loop
    raises [AttributeError] on its element. *)
Lemma parse_batch_votes_raises :
  ~ (forall raw n, exists votes,
       parse_batch_votes loads raw n = Ok votes
       /\ length votes = n /\ forallb valid_vote votes = true).
Proof.
  intros H. destruct (H (u "[1]") 1) as [votes [E _]].
  vm_compute in E. discriminate.
Qed.

End ParserFacts.

(** ** Batch orchestrator and decision policy *)

Module OrchestratorFacts.
Import PyFacts Parser ParserFacts Orchestrator.

Lemma set_vote_at pre m post agent_name vote :
  set_vote (pre ++ m :: post) (length pre) agent_name vote
  = Ok (pre ++ dict_set m agent_name vote :: post).
Proof.
  induction pre as [|x pre IH]; simpl; [reflexivity|].
  rewrite IH. reflexivity.
Qed.

Lemma valid_vote_of v : valid_vote v = true -> exists s, vote_of v = Ok (JStr s).
Proof.
  destruct v; simpl; try discriminate.
  destruct (dict_get d (u "vote")) as [[]|]; simpl; try discriminate. eauto.
Qed.

(** On as many valid votes as there are candidates, the loop of the [try]
    block runs to its end: candidate [j] gets vote [j]. *)
Lemma store_votes_ok agent_name votes : forall pre post,
  forallb valid_vote votes = true ->
  length post = length votes ->
  store_votes (pre ++ post) (length pre) agent_name votes
  = (pre ++ map (fun mv => dict_set (fst mv) agent_name (snd mv)) (combine post votes),
     None).
Proof.
  induction votes as [|v votes IH]; intros pre post Hv Hlen.
  - destruct post; [|discriminate]. reflexivity.
  - destruct post as [|m post]; [discriminate|].
    simpl in Hv. apply andb_true_iff in Hv. destruct Hv as [Hv Hvs].
    cbn [store_votes]. rewrite set_vote_at.
    destruct (valid_vote_of _ Hv) as [s ->].
    replace (pre ++ dict_set m agent_name v :: post)
      with ((pre ++ [dict_set m agent_name v]) ++ post)
      by (rewrite <- app_assoc; reflexivity).
    replace (S (length pre)) with (length (pre ++ [dict_set m agent_name v]))
      by (rewrite length_app; simpl; lia).
    rewrite IH by (auto; simpl in Hlen; lia).
    rewrite <- app_assoc. reflexivity.
Qed.

Lemma store_errors_spec agent_name e : forall all_votes j,
  store_errors all_votes j agent_name e
  = map (fun mv => dict_set (fst mv) agent_name (snd mv))
        (combine all_votes
                 (map (fun i => agent_error_vote (i + 1) e) (seq j (length all_votes)))).
Proof.
  induction all_votes as [|m l IH]; intros j; simpl; [reflexivity|].
  rewrite IH. reflexivity.
Qed.

Section Zip.

Variable json_loads : str -> result json.
Variable call_llm : nat -> result str.

Local Abbreviation attempt := (attempt json_loads call_llm).
Local Abbreviation agent_votes := (agent_votes json_loads call_llm).
Local Abbreviation evaluate_agent := (evaluate_agent json_loads call_llm).
Local Abbreviation collect_votes := (collect_votes json_loads call_llm).
Local Abbreviation zipped := (zipped json_loads call_llm).

Lemma attempt_votes n k votes :
  attempt n k = Ok votes -> length votes = n /\ forallb valid_vote votes = true.
Proof.
  unfold Orchestrator.attempt. destruct (call_llm k) as [raw|e]; [|discriminate].
  cbn [bind]. apply parse_batch_votes_returns.
Qed.

Lemma length_agent_votes n k : length (agent_votes n k) = n.
Proof.
  unfold Orchestrator.agent_votes. destruct (attempt n k) as [votes|e] eqn:E.
  - apply (attempt_votes _ _ _ E).
  - rewrite length_map, length_seq. reflexivity.
Qed.

(** One persona: whether its attempt succeeds or raises, every candidate of
    the batch receives one vote under the persona's name. *)
Lemma evaluate_agent_spec n k a all_votes :
  length all_votes = n ->
  evaluate_agent n k a all_votes
  = map (fun mv => dict_set (fst mv) (name a) (snd mv))
        (combine all_votes (agent_votes n k)).
Proof.
  intros Hlen. unfold Orchestrator.evaluate_agent, Orchestrator.agent_votes.
  destruct (attempt n k) as [votes|e] eqn:E.
  - destruct (attempt_votes _ _ _ E) as [Hl Hv].
    pose proof (store_votes_ok (name a) votes [] all_votes Hv) as H.
    simpl in H. rewrite H by congruence. reflexivity.
  - rewrite store_errors_spec. rewrite Hlen. reflexivity.
Qed.

Lemma nth_error_zip {A B C} (f : A * B -> C) (l1 : list A) (l2 : list B) d : forall i x,
  length l1 = length l2 ->
  nth_error l1 i = Some x ->
  nth_error (map f (combine l1 l2)) i = Some (f (x, nth i l2 d)).
Proof.
  revert l2; induction l1 as [|a l1 IH]; intros [|b l2] i x Hlen Hx;
    try discriminate; destruct i; simpl in *; try discriminate.
  - inversion Hx; reflexivity.
  - apply IH; [lia | exact Hx].
Qed.

Lemma length_evaluate_agent n k a all_votes :
  length all_votes = n -> length (evaluate_agent n k a all_votes) = n.
Proof.
  intros H. rewrite evaluate_agent_spec by exact H.
  rewrite length_map, length_combine, length_agent_votes. lia.
Qed.

Lemma length_collect_votes n agents : forall k all_votes,
  length all_votes = n -> length (collect_votes n k agents all_votes) = n.
Proof.
  induction agents as [|a agents IH]; intros k all_votes H; simpl; [exact H|].
  apply IH. apply length_evaluate_agent. exact H.
Qed.

(** After all personas, the accumulator holds for candidate [i] the
    personas' votes for position [i], zipped into one map. *)
Lemma collect_votes_nth n agents : forall k all_votes i m,
  length all_votes = n ->
  nth_error all_votes i = Some m ->
  nth_error (collect_votes n k agents all_votes) i = Some (zipped n i k agents m).
Proof.
  induction agents as [|a agents IH]; intros k all_votes i m Hlen Hm; simpl.
  - exact Hm.
  - apply IH; [apply length_evaluate_agent; exact Hlen|].
    rewrite evaluate_agent_spec by exact Hlen.
    rewrite (nth_error_zip _ all_votes (agent_votes n k) JNull i m).
    + reflexivity.
    + rewrite length_agent_votes. exact Hlen.
    + exact Hm.
Qed.

End Zip.

Lemma existsb_str_eqb k ks : existsb (str_eqb k) ks = true <-> In k ks.
Proof.
  rewrite existsb_exists. split.
  - intros [x [Hx E]]. apply str_eqb_eq in E. subst. exact Hx.
  - intros H. exists k. split; [exact H | apply str_eqb_refl].
Qed.



Lemma Forall_values_dict_set (P : json -> Prop) (d : dict json) k v :
  Forall P (values d) -> P v -> Forall P (values (dict_set d k v)).
Proof.
  intros Hd Hv. induction d as [|[k' v'] d IH]; simpl.
  - constructor; [exact Hv | constructor].
  - inversion Hd; subst. destruct (str_eqb k' k); simpl; constructor; auto.
Qed.

Section ZipFacts.

Variable json_loads : str -> result json.
Variable call_llm : nat -> result str.

Local Abbreviation attempt := (attempt json_loads call_llm).
Local Abbreviation agent_votes := (agent_votes json_loads call_llm).
Local Abbreviation zipped := (zipped json_loads call_llm).



Lemma zipped_keys n i agents : forall k m,
  NoDup (keys m ++ map name agents) ->
  keys (zipped n i k agents m) = keys m ++ map name agents.
Proof.
  induction agents as [|a agents IH]; intros k m H; simpl.
  - rewrite app_nil_r. reflexivity.
  - assert (E : keys (dict_set m (name a) (nth i (agent_votes n k) JNull))
                = keys m ++ [name a]).
    { rewrite keys_dict_set.
      destruct (existsb (str_eqb (name a)) (keys m)) eqn:E; [|reflexivity].
      apply existsb_str_eqb in E. exfalso.
      simpl in H. apply NoDup_remove_2 in H. apply H.
      apply in_or_app. left. exact E. }
    rewrite IH; rewrite E; rewrite <- app_assoc; [reflexivity | exact H].
Qed.



Lemma zipped_Forall (P : json -> Prop) n i agents : forall k m,
  Forall P (values m) ->
  (forall j, j < length agents -> P (nth i (agent_votes n (k + j)) JNull)) ->
  Forall P (values (zipped n i k agents m)).
Proof.
  induction agents as [|a agents IH]; intros k m Hm HP; simpl; [exact Hm|].
  apply IH.
  - apply Forall_values_dict_set; [exact Hm|].
    specialize (HP 0). rewrite Nat.add_0_r in HP. apply HP. simpl. lia.
  - intros j Hj. replace (S k + j) with (k + S j) by lia. apply HP. simpl. lia.
Qed.

End ZipFacts.

(** *** One candidate: [build_result] *)

Lemma has_verdict_valid v : valid_vote v = true -> exists s, vote_of v = Ok (JStr s).
Proof. apply valid_vote_of. Qed.

Lemma mapM_vote_of_valid l :
  forallb valid_vote l = true ->
  exists vals, mapM vote_of l = Ok vals /\ Forall (fun x => exists s, x = JStr s) vals.
Proof.
  induction l as [|v l IH]; simpl; intros H.
  - exists []. split; [reflexivity | constructor].
  - apply andb_true_iff in H. destruct H as [Hv Hl].
    destruct (valid_vote_of _ Hv) as [s Es]. destruct (IH Hl) as [vals [E HF]].
    exists (JStr s :: vals). rewrite Es. cbn [bind]. rewrite E. split; [reflexivity|].
    constructor; eauto.
Qed.

Lemma mapM_score_of_strings vals :
  Forall (fun x => exists s, x = JStr s) vals -> exists scores, mapM score_of vals = Ok scores.
Proof.
  induction 1 as [|x vals [s ->] _ [scores E]]; simpl; [eauto|].
  rewrite E. simpl. eauto.
Qed.

Lemma sum_confidence_ok l : forall acc,
  forallb numeric_confidence l = true -> exists t, sum_confidence l acc = Ok t.
Proof.
  induction l as [|v l IH]; intros acc H; simpl; [eauto|].
  simpl in H. apply andb_true_iff in H. destruct H as [Hv Hl].
  unfold numeric_confidence in Hv.
  destruct (confidence_of v) as [c|]; [|discriminate]. cbn [bind] in *.
  destruct (number_of c) as [q|]; [|discriminate]. cbn [bind].
  apply IH. exact Hl.
Qed.

Lemma sum_confidence_bounds l : forall acc t,
  forallb unit_confidence l = true ->
  sum_confidence l acc = Ok t ->
  (acc <= t /\ t <= acc + inject_Z (Z.of_nat (length l)))%Q.
Proof.
  induction l as [|v l IH]; intros acc t H E.
  - simpl in E. inversion E; subst.
    change (inject_Z (Z.of_nat (length (@nil json)))) with 0%Q. lra.
  - simpl in H. apply andb_true_iff in H. destruct H as [Hv Hl].
    cbn [sum_confidence] in E. unfold unit_confidence in Hv.
    destruct (confidence_of v) as [c|]; [|discriminate]. cbn [bind] in *.
    destruct (number_of c) as [q|]; [|discriminate]. cbn [bind] in *.
    apply andb_true_iff in Hv. destruct Hv as [H0 H1].
    apply Qle_bool_iff in H0, H1.
    destruct (IH _ _ Hl E) as [Ha Hb].
    cbn [length]. rewrite Nat2Z.inj_succ, <- Z.add_1_r, inject_Z_plus.
    change (inject_Z 1) with 1%Q. lra.
Qed.

Lemma count_votes_verdict s l vals :
  mapM vote_of l = Ok vals ->
  count_votes s vals = length (filter (has_verdict s) l).
Proof.
  revert vals; induction l as [|v l IH]; intros vals E.
  - inversion E. reflexivity.
  - cbn [mapM] in E.
    destruct (vote_of v) as [x|e] eqn:Ex; [|discriminate]. cbn [bind] in E.
    destruct (mapM vote_of l) as [vals'|e]; [|discriminate]. cbn [bind] in E.
    inversion E; subst. specialize (IH vals' eq_refl).
    unfold count_votes in *. cbn [filter].
    replace (has_verdict s v) with (is_str s x) by (unfold has_verdict; rewrite Ex; reflexivity).
    destruct (is_str s x); cbn [length]; rewrite IH; reflexivity.
Qed.

(** The fields of a result, read off the vote map. *)
Lemma build_result_fields now p votes r :
  build_result now p votes = Ok r ->
  Orchestrator.votes r = votes
  /\ property_id r = id p
  /\ no_count r = count_verdict NO votes
  /\ yes_count r = count_verdict YES votes
  /\ decision_ r = decide (length votes) (no_count r) (yes_count r)
  /\ exists total,
       sum_confidence (values votes) 0 = Ok total
       /\ confidence_avg r
          = round2 (total / inject_Z (Z.of_nat (Nat.max (length votes) 1))).
Proof.
  unfold build_result. intros H.
  destruct (mapM vote_of (values votes)) as [vals|] eqn:E; [|discriminate].
  cbn [bind] in H.
  destruct (mapM score_of vals) as [scores|]; [|discriminate]. cbn [bind] in H.
  destruct (sum_confidence (values votes) 0) as [total|]; [|discriminate].
  cbn [bind] in H. inversion H; subst; clear H. cbn.
  unfold count_verdict. rewrite !(count_votes_verdict _ _ _ E).
  repeat split; eauto.
Qed.

(** A result is built whenever every vote of the map is a vote record with
    a verdict and a numeric (or absent) confidence. *)
Lemma build_result_ok now p votes :
  forallb valid_vote (values votes) = true ->
  forallb numeric_confidence (values votes) = true ->
  exists r, build_result now p votes = Ok r.
Proof.
  intros Hv Hn. unfold build_result.
  destruct (mapM_vote_of_valid _ Hv) as [vals [E HF]]. rewrite E. cbn [bind].
  destruct (mapM_score_of_strings _ HF) as [scores Es]. rewrite Es. cbn [bind].
  destruct (sum_confidence_ok _ 0%Q Hn) as [t Et]. rewrite Et. cbn [bind]. eauto.
Qed.

(** *** Decision policy *)

Lemma decide_skip n_votes no_count yes_count :
  decide n_votes no_count yes_count = SKIP
  <-> (no_count = n_votes /\ 0 < n_votes) \/ (3 <= no_count /\ yes_count = 0).
Proof.
  unfold decide.
  destruct (Nat.eqb_spec no_count n_votes), (Nat.ltb_spec 0 n_votes),
    (Nat.leb_spec 3 no_count), (Nat.eqb_spec yes_count 0); simpl;
    split; try discriminate; try reflexivity; lia.
Qed.

Lemma decide_send n_votes no_count yes_count :
  decide n_votes no_count yes_count = SEND
  <-> ~ ((no_count = n_votes /\ 0 < n_votes) \/ (3 <= no_count /\ yes_count = 0)).
Proof.
  rewrite <- decide_skip. destruct (decide n_votes no_count yes_count); split; congruence.
Qed.

Lemma length_filter_all {A} (f : A -> bool) l :
  length (filter f l) = length l <-> forallb f l = true.
Proof.
  induction l as [|x l IH]; simpl; [tauto|].
  pose proof (filter_length_le f l) as Hle.
  destruct (f x); simpl.
  - rewrite <- IH. lia.
  - split; [lia | discriminate].
Qed.

Lemma verdicts_exclusive v : has_verdict NO v = true -> has_verdict YES v = false.
Proof.
  unfold has_verdict. destruct (vote_of v) as [[]|]; simpl; try discriminate.
  intros H. apply str_eqb_eq in H. subst. reflexivity.
Qed.

Lemma all_no_none_yes l :
  forallb (has_verdict NO) l = true -> length (filter (has_verdict YES) l) = 0.
Proof.
  induction l as [|v l IH]; simpl; [reflexivity|].
  intros H. apply andb_true_iff in H. destruct H as [Hv Hl].
  rewrite (verdicts_exclusive _ Hv). auto.
Qed.

(** The decision read off a vote map: the first rule carries the guard
    [len(votes) > 0]. *)
Lemma decision_of_votes (now : str) (p : prop) (votes : vote_map) (r : batch_result) :
  build_result now p votes = Ok r ->
  no_count r = count_verdict NO votes
  /\ yes_count r = count_verdict YES votes
  /\ (decision_ r = SKIP
      <-> (votes <> [] /\ forallb (has_verdict NO) (values votes) = true)
          \/ (3 <= count_verdict NO votes /\ count_verdict YES votes = 0))
  /\ (decision_ r = SEND
      <-> ~ ((votes <> [] /\ forallb (has_verdict NO) (values votes) = true)
             \/ (3 <= count_verdict NO votes /\ count_verdict YES votes = 0)))
  /\ (1 <= count_verdict YES votes -> decision_ r = SEND).
Proof.
  intros H.
  destruct (build_result_fields _ _ _ _ H) as (_ & _ & Hno & Hyes & Hd & _).
  assert (Hall : (no_count r = length votes /\ 0 < length votes)
                 <-> (votes <> [] /\ forallb (has_verdict NO) (values votes) = true)).
  { rewrite Hno. unfold count_verdict.
    rewrite <- (length_map snd votes) at 1 2. fold (values votes).
    rewrite length_filter_all. unfold values. rewrite length_map.
    destruct votes; simpl; split; intros [A B]; split; auto; try lia; congruence. }
  split; [exact Hno|]. split; [exact Hyes|].
  rewrite Hd, decide_skip, decide_send, Hall, <- Hno, <- Hyes.
  split; [tauto|]. split; [tauto|].
  intros Hy [[_ Hn] | [_ Hz]]; [|lia].
  apply all_no_none_yes in Hn. rewrite Hyes in Hy. unfold count_verdict in Hy. lia.
Qed.

(** The personas of [AGENTS] have different names. *)
Lemma AGENTS_distinct : NoDup (map name AGENTS).
Proof.
  repeat constructor; simpl; intros H;
    repeat (destruct H as [H|H]; [discriminate H|]); exact H.
Qed.

(** *** Mean confidence *)

Lemma hundredths_unit (z : Z) :
  (0 <= z <= 100)%Z -> (0 <= inject_Z z / 100 /\ inject_Z z / 100 <= 1)%Q.
Proof.
  intros [H0 H1]. rewrite Zle_Qle in H0, H1.
  change (inject_Z 0) with 0%Q in H0. change (inject_Z 100) with 100%Q in H1.
  split.
  - apply Qle_shift_div_l; [reflexivity | lra].
  - apply Qle_shift_div_r; [reflexivity | lra].
Qed.

(** Rounding to hundredths keeps a number of [[0,1]] in [[0,1]]. *)
Lemma round2_unit (x : Q) : (0 <= x <= 1)%Q -> (0 <= round2 x /\ round2 x <= 1)%Q.
Proof.
  intros [H0 H1]. unfold round2.
  set (y := (x * 100)%Q). set (f := Qfloor y).
  assert (Hy : (0 <= y /\ y <= 100)%Q) by (unfold y; lra).
  assert (Hf0 : (0 <= f)%Z) by (apply (Qfloor_resp_le 0 y); tauto).
  assert (Hf1 : (f <= 100)%Z) by (apply (Qfloor_resp_le y 100); tauto).
  assert (Hfy : (inject_Z f <= y)%Q) by apply Qfloor_le.
  assert (Hlt : (0 < y - inject_Z f)%Q -> (f + 1 <= 100)%Z).
  { intros Hr. assert (Hq : (inject_Z f < inject_Z 100)%Q).
    { change (inject_Z 100) with 100%Q. lra. }
    rewrite <- Zlt_Qlt in Hq. lia. }
  destruct (y - inject_Z f ?= 1 # 2)%Q eqn:E.
  - apply Qeq_alt in E.
    assert (Hr : (0 < y - inject_Z f)%Q) by (rewrite E; reflexivity).
    specialize (Hlt Hr).
    destruct (Z.even f); apply hundredths_unit; lia.
  - apply hundredths_unit; lia.
  - apply Qgt_alt in E.
    assert (Hr : (0 < y - inject_Z f)%Q) by lra.
    specialize (Hlt Hr). apply hundredths_unit; lia.
Qed.

Lemma mean_unit (total : Q) (len : nat) :
  (0 <= total /\ total <= inject_Z (Z.of_nat len))%Q ->
  (0 <= total / inject_Z (Z.of_nat (Nat.max len 1))
   /\ total / inject_Z (Z.of_nat (Nat.max len 1)) <= 1)%Q.
Proof.
  intros [H0 H1].
  assert (Hk : (inject_Z (Z.of_nat len) <= inject_Z (Z.of_nat (Nat.max len 1)))%Q)
    by (rewrite <- Zle_Qle; lia).
  assert (Hk1 : (0 < inject_Z (Z.of_nat (Nat.max len 1)))%Q).
  { change 0%Q with (inject_Z 0). rewrite <- Zlt_Qlt. lia. }
  split.
  - apply Qle_shift_div_l; [exact Hk1 | lra].
  - apply Qle_shift_div_r; [exact Hk1 | lra].
Qed.

(** *** The whole batch *)

Lemma build_results_fields now : forall batch all_votes results,
  length all_votes = length batch ->
  build_results now batch all_votes = Ok results ->
  map votes results = all_votes /\ map property_id results = map id batch.
Proof.
  induction batch as [|p batch IH]; intros [|m all_votes] results Hlen H;
    try discriminate.
  - inversion H. split; reflexivity.
  - cbn [build_results] in H.
    destruct (build_result now p m) as [r|] eqn:Er; [|discriminate]. cbn [bind] in H.
    destruct (build_results now batch all_votes) as [rs|] eqn:Ers; [|discriminate].
    inversion H; subst.
    destruct (build_result_fields _ _ _ _ Er) as (Hv & Hid & _).
    assert (Hlen' : length all_votes = length batch) by (simpl in Hlen; lia).
    destruct (IH _ _ Hlen' Ers) as [Hvs Hids].
    simpl. rewrite Hv, Hid, Hvs, Hids. split; reflexivity.
Qed.

Lemma build_results_ok now : forall batch all_votes,
  length all_votes = length batch ->
  Forall (fun m => forallb valid_vote (values m) = true
                   /\ forallb numeric_confidence (values m) = true) all_votes ->
  exists results, build_results now batch all_votes = Ok results.
Proof.
  induction batch as [|p batch IH]; intros [|m all_votes] Hlen HF; try discriminate.
  - exists []. reflexivity.
  - inversion HF as [|? ? [Hv Hn] HF']; subst.
    destruct (build_result_ok now p m Hv Hn) as [r Er].
    assert (Hlen' : length all_votes = length batch) by (simpl in Hlen; lia).
    destruct (IH all_votes Hlen' HF') as [rs Ers].
    exists (r :: rs). cbn [build_results]. rewrite Er. cbn [bind]. rewrite Ers.
    reflexivity.
Qed.

Lemma build_results_In now : forall batch all_votes results r,
  build_results now batch all_votes = Ok results ->
  In r results ->
  exists p votes, In p batch /\ In votes all_votes /\ build_result now p votes = Ok r.
Proof.
  induction batch as [|p batch IH]; intros all_votes results r H Hr.
  - inversion H; subst. destruct Hr.
  - destruct all_votes as [|m all_votes]; [discriminate|].
    cbn [build_results] in H.
    destruct (build_result now p m) as [r0|] eqn:E0; [|discriminate]. cbn [bind] in H.
    destruct (build_results now batch all_votes) as [rs|] eqn:Ers; [|discriminate].
    inversion H; subst. destruct Hr as [<-|Hr].
    + exists p, m. simpl. auto.
    + destruct (IH _ _ _ Ers Hr) as (p' & votes & Hp & Hv & E).
      exists p', votes. simpl. auto.
Qed.





Lemma valid_agent_error_vote j e : valid_vote (agent_error_vote j e) = true.
Proof. reflexivity. Qed.


Section Batch.

Variable json_loads : str -> result json.
Variable call_llm : nat -> result str.

Local Abbreviation attempt := (attempt json_loads call_llm).
Local Abbreviation agent_votes := (agent_votes json_loads call_llm).
Local Abbreviation collect_votes := (collect_votes json_loads call_llm).
Local Abbreviation zipped := (zipped json_loads call_llm).
Local Abbreviation evaluate_batch := (evaluate_batch json_loads call_llm).


Lemma agent_votes_error n k i e :
  i < n -> attempt n k = Raise e ->
  nth i (agent_votes n k) JNull = agent_error_vote (i + 1) e.
Proof.
  intros Hi E. unfold Orchestrator.agent_votes. rewrite E.
  rewrite (nth_indep _ JNull (agent_error_vote (0 + 1) e))
    by (rewrite length_map, length_seq; exact Hi).
  rewrite (map_nth (fun j => agent_error_vote (j + 1) e)).
  rewrite seq_nth by exact Hi. reflexivity.
Qed.


Lemma collect_votes_zipped n agents i votes :
  nth_error (collect_votes n 0 agents (repeat [] n)) i = Some votes ->
  i < n /\ votes = zipped n i 0 agents [].
Proof.
  intros H.
  assert (Hi : i < n).
  { assert (Hs : nth_error (collect_votes n 0 agents (repeat [] n)) i <> None)
      by congruence.
    apply nth_error_Some in Hs. rewrite length_collect_votes in Hs; [exact Hs|].
    apply repeat_length. }
  split; [exact Hi|].
  rewrite (collect_votes_nth json_loads call_llm n agents 0 (repeat [] n) i []) in H.
  - congruence.
  - apply repeat_length.
  - rewrite nth_error_repeat by exact Hi. reflexivity.
Qed.



(** C2: for every vote map [evaluate_batch] builds (one vote per persona of
    [AGENTS]), the decision is SKIP if every persona voted NO, or if at
    least 3 voted NO and none voted YES, and SEND in every other case; in
    particular it is SEND as soon as one persona voted YES. *)
Theorem decision_policy (now : str) (batch : list prop) (results : list batch_result)
    (r : batch_result) :
  evaluate_batch AGENTS now batch = Ok results ->
  In r results ->
  length (votes r) = length AGENTS
  /\ no_count r = count_verdict NO (votes r)
  /\ yes_count r = count_verdict YES (votes r)
  /\ (decision_ r = SKIP
      <-> forallb (has_verdict NO) (values (votes r)) = true
          \/ (3 <= count_verdict NO (votes r) /\ count_verdict YES (votes r) = 0))
  /\ (decision_ r = SEND
      <-> ~ (forallb (has_verdict NO) (values (votes r)) = true
             \/ (3 <= count_verdict NO (votes r) /\ count_verdict YES (votes r) = 0)))
  /\ (1 <= count_verdict YES (votes r) -> decision_ r = SEND).
Proof.
  intros H Hr. unfold Orchestrator.evaluate_batch in H.
  destruct (build_results_In now batch _ results r H Hr) as (p & m & _ & Hm & Er).
  apply In_nth_error in Hm. destruct Hm as [i Hm].
  apply collect_votes_zipped in Hm. destruct Hm as [Hi Em].
  assert (Hk : keys m = map name AGENTS).
  { rewrite Em. apply (zipped_keys json_loads call_llm (length batch) i AGENTS 0 []).
    exact AGENTS_distinct. }
  assert (Hlen : length m = length AGENTS).
  { unfold keys in Hk. rewrite <- (length_map fst m), Hk, length_map. reflexivity. }
  assert (Hne : m <> []) by (intros ->; discriminate Hlen).
  destruct (build_result_fields _ _ _ _ Er) as (Hv & _).
  destruct (decision_of_votes now p m r Er) as (Hno & Hyes & Hskip & Hsend & Hy).
  rewrite Hv. split; [exact Hlen|]. split; [exact Hno|]. split; [exact Hyes|].
  split; [tauto|]. split; [tauto | exact Hy].
Qed.

End Batch.

(** Every persona answers NO for the only candidate: SKIP through the
    first rule. *)
Lemma decision_policy_witness :
  exists r,
    evaluate_batch loads (fun _ => Ok (uq "[{'vote':'NO'}]")) AGENTS []
      [Samples.in_sants] = Ok [r]
    /\ decision_ r = SKIP /\ no_count r = 4.
Proof.
  destruct (evaluate_batch loads (fun _ => Ok (uq "[{'vote':'NO'}]")) AGENTS []
              [Samples.in_sants]) as [[|r [|r' rs]]|e] eqn:E;
    try (vm_compute in E; discriminate E).
  exists r. split; [reflexivity|].
  destruct (decision_policy loads (fun _ => Ok (uq "[{'vote':'NO'}]")) []
              [Samples.in_sants] [r] r E (or_introl eq_refl))
    as (_ & Hno & _ & Hskip & _).
  vm_compute in E. injection E as Er. subst r.
  split; [apply Hskip; left; reflexivity | reflexivity].
Defined.

(** *** Confidence *)

(** C9 (amended): the confidence of a vote is not validated.  A vote the
    parser returns is either a synthesized vote (padding or parse failure),
    whose confidence is 0.0, or the element of the decoded reply at the same
    position with its confidence entry as decoded, whatever it is.  The mean
    confidence of a candidate lies in [[0,1]] when every vote of its map
    carries a number of [[0,1]] (an absent confidence counts as 0.5). *)
Theorem confidence_passes_through :
  (forall json_loads raw n votes i vote,
      parse_batch_votes json_loads raw n = Ok votes ->
      nth_error votes i = Some vote ->
      ((vote = missing_vote (i + 1) \/ vote = parse_failure_vote (i + 1))
       /\ confidence_entry vote = Some (JFloat 0))
      \/ exists t v x,
           unfence raw = Ok t /\ json_loads (strip t) = Ok v
           /\ nth_error (as_list v) i = Some x
           /\ confidence_entry vote = confidence_entry x)
  /\ (forall now p votes r,
        build_result now p votes = Ok r ->
        forallb unit_confidence (values votes) = true ->
        (0 <= confidence_avg r /\ confidence_avg r <= 1)%Q).
Proof.
  split.
  - intros json_loads raw n votes i vote H Hi.
    destruct (parse_batch_votes_origin json_loads raw n votes i vote H Hi)
      as [[-> | ->] | Hx]; auto.
  - intros now p votes r H Hu.
    destruct (build_result_fields _ _ _ _ H) as (_ & _ & _ & _ & _ & total & Et & ->).
    apply round2_unit. apply mean_unit.
    destruct (sum_confidence_bounds _ _ _ Hu Et) as [Ha Hb].
    unfold values in Hb. rewrite length_map in Hb. lra.
Qed.

(** C9 as stated fails: the parser returns the vote with its confidence 5,
    and the mean confidence of the candidate is 5. *)
Lemma confidence_out_of_range :
  ~ (forall raw n votes,
       parse_batch_votes loads raw n = Ok votes ->
       forallb unit_confidence votes = true)
  /\ (exists r, evaluate_batch loads (fun _ => Ok Samples.overconfident_reply) AGENTS []
                              [Samples.in_sants]
                = Ok [r]
                /\ (confidence_avg r == 5)%Q).
Proof.
  split.
  - intros H.
    destruct (parse_batch_votes loads Samples.overconfident_reply 1) as [votes|] eqn:E;
      [|discriminate E].
    specialize (H _ _ _ E). vm_compute in E. inversion E; subst. discriminate H.
  - eexists. split; [vm_compute; reflexivity | reflexivity].
Qed.

End OrchestratorFacts.

(** ** Report hand-off *)

Module NotifyFacts.
Import PyFacts Notify.

Lemma separator_not_nil : separator <> [].
Proof. discriminate. Qed.

Lemma startswith_separator t : startswith t separator = true -> nth_error t 2 = Some bar.
Proof.
  intros H. apply startswith_app in H. destruct H as [r ->]. reflexivity.
Qed.

(** The separator does not start inside a block, nor on its last
    characters: its third character is the bar. *)
Lemma no_separator_inside c b tail :
  ~ In bar (c :: b) ->
  nth_error tail 0 <> Some bar -> nth_error tail 1 <> Some bar ->
  startswith ((c :: b) ++ tail) separator = false.
Proof.
  intros Hb H0 H1.
  destruct (startswith ((c :: b) ++ tail) separator) eqn:E; [|reflexivity].
  apply startswith_separator in E. exfalso.
  destruct b as [|c2 [|c3 b]]; simpl in E.
  - apply H1. exact E.
  - apply H0. destruct tail; exact E.
  - inversion E; subst. apply Hb. simpl. auto.
Qed.

Lemma split_go_block b : forall cur rest,
  ~ In bar b ->
  split_go separator 0 cur (b ++ separator ++ rest)
  = (rev cur ++ b) :: split_go separator 0 [] rest.
Proof.
  induction b as [|c b IH]; intros cur rest Hb.
  - change ([] ++ separator ++ rest) with (separator ++ rest).
    rewrite split_go_match by apply separator_not_nil.
    rewrite app_nil_r. reflexivity.
  - change ((c :: b) ++ separator ++ rest) with (c :: (b ++ separator ++ rest)).
    rewrite split_go_nomatch.
    + rewrite IH by (simpl in Hb; tauto). simpl. rewrite <- app_assoc. reflexivity.
    + apply (no_separator_inside c b (separator ++ rest) Hb); discriminate.
Qed.

Lemma split_go_last b : forall cur,
  ~ In bar b -> split_go separator 0 cur b = [rev cur ++ b].
Proof.
  induction b as [|c b IH]; intros cur Hb.
  - simpl. rewrite app_nil_r. reflexivity.
  - rewrite split_go_nomatch.
    + rewrite IH by (simpl in Hb; tauto). simpl. rewrite <- app_assoc. reflexivity.
    + rewrite <- (app_nil_r (c :: b)).
      apply (no_separator_inside c b [] Hb); discriminate.
Qed.

(** Splitting a report at the separator gives back the blocks it was
    assembled from. *)
Lemma split_join blocks :
  blocks <> [] -> Forall block_ok blocks ->
  split (join separator blocks) separator = blocks.
Proof.
  intros Hne HF. unfold split.
  induction blocks as [|b blocks IH]; [congruence|].
  inversion HF as [|? ? [_ Hb] HF']; subst.
  destruct blocks as [|b2 blocks].
  - simpl. apply (split_go_last b []). exact Hb.
  - rewrite join_cons by discriminate.
    rewrite split_go_block by exact Hb.
    change (rev [] ++ b) with b.
    f_equal. apply IH; [discriminate | exact HF'].
Qed.

Lemma join_snoc g p : g <> [] -> join separator (g ++ [p]) = join separator g ++ separator ++ p.
Proof.
  induction g as [|x g IH]; intros H; [congruence|].
  destruct g as [|y g].
  - reflexivity.
  - change ((x :: y :: g) ++ [p]) with (x :: ((y :: g) ++ [p])).
    rewrite join_cons by (simpl; discriminate).
    rewrite IH by discriminate.
    rewrite (join_cons separator x (y :: g)) by discriminate.
    rewrite <- !app_assoc. reflexivity.
Qed.

Lemma nonempty_true s : nonempty s = true <-> s <> [].
Proof. destruct s; simpl; split; congruence. Qed.

Lemma join_not_nil g :
  g <> [] -> Forall (fun b => b <> []) g -> join separator g <> [].
Proof.
  intros Hne HF. destruct g as [|x g]; [congruence|].
  inversion HF; subst. destruct g as [|y g]; [simpl; assumption|].
  rewrite join_cons by discriminate.
  destruct x; [congruence | discriminate].
Qed.

(** The packing loop: with the current chunk made of the group [g] and the
    finished chunks made of whole groups, the loop ends with chunks made of
    whole groups that cover [g] and the remaining parts, in order. *)
Lemma pack_groups max_len : forall parts g messages,
  Forall (fun b => b <> []) parts ->
  Forall (fun b => b <> []) g ->
  g = [] \/ fits_or_single max_len g ->
  exists groups,
    pack max_len parts (join separator g) messages
    = messages ++ map (join separator) groups
    /\ concat groups = g ++ parts
    /\ Forall (fun x => x <> []) groups
    /\ Forall (fits_or_single max_len) groups.
Proof.
  induction parts as [|part parts IH]; intros g messages Hparts Hg Hfit.
  - cbn [pack]. destruct g as [|b g].
    + exists []. simpl. rewrite app_nil_r.
      split; [reflexivity|]. split; [reflexivity|]. split; constructor.
    + assert (Hne : join separator (b :: g) <> [])
        by (apply join_not_nil; [discriminate | exact Hg]).
      apply nonempty_true in Hne. rewrite Hne.
      assert (Hfit' : fits_or_single max_len (b :: g))
        by (destruct Hfit as [Hfit|Hfit]; [discriminate | exact Hfit]).
      exists [b :: g]. simpl. rewrite !app_nil_r.
      split; [reflexivity|]. split; [reflexivity|].
      split; (constructor; [|constructor]); [discriminate | exact Hfit'].
  - inversion Hparts as [|? ? Hpart Hparts']; subst.
    cbn [pack]. destruct g as [|b g].
    + simpl (nonempty (join separator [])). cbv iota. rewrite andb_false_r.
      destruct (IH [part] messages Hparts') as (groups & E & Hc & Hn & Hf).
      * repeat constructor. exact Hpart.
      * right. right. eauto.
      * exists groups. change (join separator [part]) with part in E.
        rewrite E. auto.
    + assert (Hne : join separator (b :: g) <> [])
        by (apply join_not_nil; [discriminate | exact Hg]).
      apply nonempty_true in Hne. rewrite Hne. rewrite andb_true_r.
      destruct (Nat.ltb_spec max_len
                  (length (join separator (b :: g) ++ separator ++ part))) as [Hlt|Hle].
      * destruct (IH [part] (messages ++ [join separator (b :: g)]) Hparts')
          as (groups & E & Hc & Hn & Hf).
        { repeat constructor. exact Hpart. }
        { right. right. eauto. }
        assert (Hfit' : fits_or_single max_len (b :: g))
          by (destruct Hfit as [Hfit|Hfit]; [discriminate | exact Hfit]).
        exists ((b :: g) :: groups).
        change (join separator [part]) with part in E. rewrite E.
        rewrite <- app_assoc. cbn [map concat app]. rewrite Hc.
        split; [reflexivity|]. split; [reflexivity|].
        split; (constructor; [|assumption]); [discriminate | exact Hfit'].
      * rewrite <- join_snoc by discriminate.
        destruct (IH ((b :: g) ++ [part]) messages Hparts')
          as (groups & E & Hc & Hn & Hf).
        { apply Forall_app. split; [exact Hg | repeat constructor; exact Hpart]. }
        { right. left. rewrite join_snoc by discriminate. exact Hle. }
        exists groups. split; [exact E|].
        split; [rewrite Hc, <- app_assoc; reflexivity | auto].
Qed.

(** C5 (amended): for a report assembled from item blocks (non-empty,
    without the separator's bar character) joined by the separator, the
    chunks of [_split_message] are the blocks, in order, grouped and joined
    again by the separator: every chunk is made of whole blocks.  A chunk is
    within [max_len] unless it is a single block that is longer than
    [max_len] by itself; so every chunk is within [max_len] when every block
    is. *)
Theorem split_message_whole_blocks (blocks : list str) (max_len : nat) :
  blocks <> [] -> Forall block_ok blocks ->
  exists groups,
    _split_message (join separator blocks) max_len = map (join separator) groups
    /\ concat groups = blocks
    /\ Forall (fun g => g <> []) groups
    /\ Forall (fun g => length (join separator g) <= max_len
                        \/ exists b, g = [b] /\ max_len < length b) groups
    /\ (Forall (fun b => length b <= max_len) blocks ->
        Forall (fun chunk => length chunk <= max_len)
               (_split_message (join separator blocks) max_len)).
Proof.
  intros Hne Hok.
  assert (G : exists groups,
             _split_message (join separator blocks) max_len = map (join separator) groups
             /\ concat groups = blocks
             /\ Forall (fun g => g <> []) groups
             /\ Forall (fits_or_single max_len) groups).
  { unfold _split_message.
    destruct (Nat.leb_spec (length (join separator blocks)) max_len) as [Hle|Hgt].
    - exists [blocks]. simpl. rewrite app_nil_r.
      split; [reflexivity|]. split; [reflexivity|].
      split; (constructor; [|constructor]); [exact Hne | left; exact Hle].
    - rewrite split_join by assumption.
      destruct (pack_groups max_len blocks [] []) as (groups & E & Hc & Hn & Hf).
      + eapply Forall_impl; [|exact Hok]. intros b [Hb _]. exact Hb.
      + constructor.
      + left. reflexivity.
      + exists groups. auto. }
  destruct G as (groups & E & Hc & Hn & Hf).
  assert (Hf' : Forall (fun g => length (join separator g) <= max_len
                                 \/ exists b, g = [b] /\ max_len < length b) groups).
  { eapply Forall_impl; [|exact Hf]. intros g [Hfit | [b ->]]; [left; exact Hfit|].
    destruct (Nat.le_gt_cases (length b) max_len) as [Hle|Hgt].
    - left. exact Hle.
    - right. exists b. auto. }
  exists groups. repeat (split; [assumption|]).
  intros Hall. rewrite E. rewrite Forall_forall in *.
  intros chunk Hin. apply in_map_iff in Hin. destruct Hin as [g [<- Hg]].
  destruct (Hf' g Hg) as [Hfit | [b [-> Hb]]]; [exact Hfit|].
  assert (Hbin : In b blocks).
  { rewrite <- Hc. apply in_concat. exists [b]. split; [exact Hg | left; reflexivity]. }
  specialize (Hall b Hbin). lia.
Qed.

Lemma block_ok_ascii (s : string) :
  forallb (fun c => negb (c =? bar)%N) (u s) = true -> u s <> [] -> block_ok (u s).
Proof.
  intros H Hne. split; [exact Hne|]. intros Hin.
  rewrite forallb_forall in H. specialize (H bar Hin).
  rewrite N.eqb_refl in H. discriminate.
Qed.

(** A header with the first item, and two more items, with a limit of 40
    characters: the first two blocks do not fit together. *)
Lemma split_message_whole_blocks_witness :
  let blocks := [u "Barcelona: 1. Flat A"; u "2. Flat B"; u "3. Flat C"] in
  exists groups,
    _split_message (join separator blocks) 40 = map (join separator) groups
    /\ concat groups = blocks
    /\ Forall (fun g => g <> []) groups
    /\ Forall (fun g => length (join separator g) <= 40
                        \/ exists b, g = [b] /\ 40 < length b) groups
    /\ (Forall (fun b => length b <= 40) blocks ->
        Forall (fun chunk => length chunk <= 40)
               (_split_message (join separator blocks) 40)).
Proof.
  intros blocks. apply (split_message_whole_blocks blocks 40).
  - discriminate.
  - repeat constructor; try discriminate; apply block_ok_ascii; try reflexivity;
      discriminate.
Defined.

Lemma forallb_length_le max_len chunks :
  Forall (fun chunk : str => length chunk <= max_len) chunks ->
  forallb (fun chunk => length chunk <=? max_len) chunks = true.
Proof.
  intros H. apply forallb_forall. rewrite Forall_forall in H.
  intros c Hc. apply Nat.leb_le. auto.
Qed.

Lemma block_ok_repeat c n : c <> bar -> 0 < n -> block_ok (repeat c n).
Proof.
  intros Hc Hn. split.
  - destruct n; [lia | discriminate].
  - intros Hin. apply repeat_spec in Hin. congruence.
Qed.

(** C5 as stated fails: a block longer than 4096 characters is handed to
    the sink whole, as a chunk longer than 4096 characters. *)
Lemma oversized_block_sent_whole :
  ~ (forall blocks,
       blocks <> [] -> Forall block_ok blocks ->
       Forall (fun chunk => length chunk <= 4096)
              (sent_chunks (continuation label_barcelona) (join separator blocks))).
Proof.
  intros H.
  specialize (H [u "Barcelona: 1. Flat A"; repeat 97%N 4097]).
  apply forallb_length_le in H.
  - vm_compute in H. discriminate H.
  - discriminate.
  - constructor; [apply block_ok_ascii; [reflexivity | discriminate]|].
    constructor; [|constructor]. apply block_ok_repeat; [discriminate | lia].
Qed.

(** The continuation header is put in front of a chunk after the split:
    two blocks within the limit give a second message beyond it. *)
Lemma continuation_header_not_counted :
  let blocks := [u "Barcelona: 1. Flat A"; repeat 97%N 4090] in
  forallb (fun b => length b <=? 4096) blocks = true
  /\ map (fun chunk => length chunk)
         (sent_chunks (continuation label_barcelona) (join separator blocks))
     = [20; 4119].
Proof. vm_compute. split; reflexivity. Qed.

End NotifyFacts.

(** ** Evaluator client *)

Module ClientFacts.
Import Client.

(** C6 (amended): under the Anthropic provider a reply with status 529 is
    retried, at most twice, after 15 and then 30 seconds; the outcome of the
    last request made is the outcome of the call, so any other failure, and
    a third 529, reach the caller as an exception.  Under the Gemini
    provider there is one request and no retry, whatever the reply. *)
Theorem retry_policy (post : nat -> posted) :
  call_llm post Anthropic true
  = (if overloaded (post 0) then
       if overloaded (post 1)
       then ([Post; Sleep 15; Post; Sleep 30; Post], done (post 2))
       else ([Post; Sleep 15; Post], done (post 1))
     else ([Post], done (post 0)))
  /\ posts (fst (call_llm post Anthropic true)) <= 3
  /\ call_llm post Gemini true = ([Post], done (post 0))
  /\ (forall p, call_llm post p false = ([], Raise ValueError))
  /\ (forall e, done (Failed e) = Raise e)
  /\ (forall r, (400 <= status_code r < 600)%Z ->
                done (Replied r) = Raise (HTTPError (status_code r))).
Proof.
  assert (E : call_llm post Anthropic true
              = (if overloaded (post 0) then
                   if overloaded (post 1)
                   then ([Post; Sleep 15; Post; Sleep 30; Post], done (post 2))
                   else ([Post; Sleep 15; Post], done (post 1))
                 else ([Post], done (post 0)))).
  { unfold call_llm, call_anthropic. cbn [seq anthropic_loop].
    destruct (post 0) as [e0|r0]; cbn [overloaded]; [reflexivity|].
    destruct (status_code r0 =? 529)%Z; cbn [andb Nat.ltb Nat.leb]; [|reflexivity].
    destruct (post 1) as [e1|r1]; cbn [overloaded]; [reflexivity|].
    destruct (status_code r1 =? 529)%Z; cbn [andb Nat.ltb Nat.leb]; [|reflexivity].
    destruct (post 2) as [e2|r2]; cbn [done]; [reflexivity|].
    rewrite andb_false_r. reflexivity. }
  split; [exact E|]. split; [|split; [|split; [|split]]].
  - rewrite E. destruct (overloaded (post 0)), (overloaded (post 1)); cbn; lia.
  - unfold call_llm, call_gemini. destruct (post 0); reflexivity.
  - intros []; reflexivity.
  - reflexivity.
  - intros r [H1 H2]. cbn [done]. unfold finish.
    apply Z.leb_le in H1. apply Z.ltb_lt in H2. rewrite H1, H2. reflexivity.
Qed.

(** C6 as stated fails under the Gemini provider: an overloaded reply is
    not retried. *)
Lemma gemini_never_retries :
  ~ (forall p post,
       overloaded (post 0) = true -> 2 <= posts (fst (call_llm post p true))).
Proof.
  intros H.
  specialize (H Gemini
                (fun _ => Replied {| status_code := 529; text := Raise ValueError |})
                eq_refl).
  vm_compute in H. lia.
Qed.

End ClientFacts.

(** ** Progress store *)

Module StoreFacts.
Import PyFacts Store.

Lemma dict_without_set {V} (d : dict V) k v :
  dict_without k (dict_set d k v) = dict_without k d.
Proof.
  induction d as [|[k' v'] d IH]; simpl.
  - rewrite str_eqb_refl. reflexivity.
  - destruct (str_eqb k' k) eqn:E; simpl; rewrite E; simpl; [reflexivity|].
    rewrite IH. reflexivity.
Qed.

(** C7: [save_analyzed(load_analyzed())] on a persisted record leaves every
    entry other than ["last_run"] as it was, in place, and sets ["last_run"]
    to the current time; [save_analyzed] does so for every record it is
    given, whatever the record holds. *)
Theorem save_load_roundtrip (now : str) (d : dict json) :
  exists d',
    save_load now (Document (JDict d)) = Ok (Document (JDict d'))
    /\ save_analyzed now (JDict d) = Ok (Document (JDict d'))
    /\ dict_get d' (u "last_run") = Some (JStr now)
    /\ dict_without (u "last_run") d' = dict_without (u "last_run") d
    /\ (forall k, k <> u "last_run" -> dict_get d' k = dict_get d k).
Proof.
  exists (dict_set d (u "last_run") (JStr now)).
  split; [reflexivity|]. split; [reflexivity|].
  split; [apply dict_get_set_same|].
  split; [apply dict_without_set|].
  intros k Hk. apply dict_get_set_other. congruence.
Qed.

End StoreFacts.

(** ** Intake filter *)

Module IntakeFacts.
Import PyFacts Orchestrator Intake.

Section Filter.

Variable fromisoformat : str -> option datetime.
Variable now : Z.

Local Abbreviation eligible := (eligible fromisoformat now).
Local Abbreviation get_unanalyzed := (get_unanalyzed fromisoformat now).

(** What the loop keeps, when it runs to its end. *)
Lemma get_unanalyzed_In analyzed_ids : forall properties filtered,
  get_unanalyzed properties analyzed_ids = Ok filtered ->
  forall p, In p filtered <-> In p properties /\ eligible analyzed_ids p = Ok true.
Proof.
  induction properties as [|q rest IH]; intros filtered H p.
  - inversion H. simpl. tauto.
  - cbn [Intake.get_unanalyzed] in H.
    destruct (eligible analyzed_ids q) as [keep|] eqn:Eq; [|discriminate].
    cbn [bind] in H.
    destruct (get_unanalyzed rest analyzed_ids) as [l|]; [|discriminate].
    cbn [bind] in H. inversion H; subst; clear H.
    specialize (IH l eq_refl p). destruct keep; simpl; rewrite IH; split.
    + intros [->|[H1 H2]]; auto.
    + intros [[->|H1] H2]; auto.
    + intros [H1 H2]; auto.
    + intros [[->|H1] H2]; [congruence | auto].
Qed.

(** The loop runs to its end when no timestamp carries a UTC offset. *)
Lemma get_unanalyzed_ok analyzed_ids : forall properties,
  (forall p t, In p properties -> fromisoformat (scraped_at p) <> Some (Aware t)) ->
  exists filtered, get_unanalyzed properties analyzed_ids = Ok filtered.
Proof.
  induction properties as [|q rest IH]; intros H; [exists []; reflexivity|].
  destruct IH as [l El]; [intros p t Hp; apply H; right; exact Hp|].
  assert (Hq : exists keep, eligible analyzed_ids q = Ok keep).
  { unfold Intake.eligible. destruct (id_in (id q) analyzed_ids); [eauto|].
    destruct (scraped_at q) as [|c s] eqn:Es; [eauto|].
    destruct (fromisoformat (c :: s)) as [[t|t]|] eqn:Et; eauto.
    exfalso. apply (H q t); [left; reflexivity | rewrite Es; exact Et]. }
  destruct Hq as [keep Ek].
  cbn [Intake.get_unanalyzed]. rewrite Ek. cbn [bind]. rewrite El. cbn [bind]. eauto.
Qed.

(** C10: a candidate whose [scraped_at] is a non-empty string that
    [fromisoformat] rejects is treated as a candidate without timestamp: it
    is kept exactly when its id is not in the analyzed set, whatever the
    clock says. *)
Theorem invalid_timestamp_is_eligible (analyzed_ids : list json) (p : prop) :
  scraped_at p <> [] ->
  fromisoformat (scraped_at p) = None ->
  eligible analyzed_ids p = Ok (negb (id_in (id p) analyzed_ids))
  /\ eligible analyzed_ids p
     = eligible analyzed_ids
         {| id := id p; scraped_at := []; address := address p; title := title p |}
  /\ (forall properties filtered,
        get_unanalyzed properties analyzed_ids = Ok filtered ->
        In p properties ->
        (In p filtered <-> id_in (id p) analyzed_ids = false))
  /\ (forall properties,
        (forall q t, In q properties -> fromisoformat (scraped_at q) <> Some (Aware t)) ->
        exists filtered, get_unanalyzed properties analyzed_ids = Ok filtered).
Proof.
  intros Hne Hbad.
  assert (E : eligible analyzed_ids p = Ok (negb (id_in (id p) analyzed_ids))).
  { unfold Intake.eligible. destruct (id_in (id p) analyzed_ids); [reflexivity|].
    destruct (scraped_at p) as [|c s] eqn:Es; [congruence|]. rewrite Hbad. reflexivity. }
  split; [exact E|]. split.
  - rewrite E. unfold Intake.eligible. simpl.
    destruct (id_in (id p) analyzed_ids); reflexivity.
  - split; [|intros properties; apply get_unanalyzed_ok].
    intros properties filtered H Hin.
    rewrite (get_unanalyzed_In analyzed_ids properties filtered H p), E.
    destruct (id_in (id p) analyzed_ids); simpl; split; try tauto; try congruence.
    intros [_ H1]. congruence.
Qed.

End Filter.

(** A candidate stamped ["yesterday"], next to one scraped long ago, with
    the clock at 2026-02-14 09:30: the first is kept, the second is not. *)
Lemma invalid_timestamp_is_eligible_witness :
  let now := 1771061400000000%Z in
  let p := {| id := u "a1"; scraped_at := u "yesterday";
              address := u "Carrer de Sants 10"; title := u "Piso" |} in
  let old := {| id := u "b2"; scraped_at := u "2020-01-01T00:00:00";
                address := u "Carrer de Sants 12"; title := u "Piso" |} in
  get_unanalyzed fromisoformat_basic now [old; p] [JStr (u "c3")] = Ok [p]
  /\ (In p [p] <-> id_in (id p) [JStr (u "c3")] = false).
Proof.
  intros now p old.
  assert (E : get_unanalyzed fromisoformat_basic now [old; p] [JStr (u "c3")] = Ok [p])
    by reflexivity.
  split; [exact E|].
  destruct (invalid_timestamp_is_eligible fromisoformat_basic now [JStr (u "c3")] p)
    as (_ & _ & H & _); [discriminate | reflexivity |].
  apply (H [old; p] [p] E). right. left. reflexivity.
Defined.

End IntakeFacts.

(** ** The run driver *)

Module RunFacts.
Import PyFacts Orchestrator Store Intake Run.

Lemma batches_In fuel : forall to_analyze batch p,
  In batch (batches fuel to_analyze) -> In p batch -> In p to_analyze.
Proof.
  induction fuel as [|fuel IH]; intros to_analyze batch p Hb Hp; [destruct Hb|].
  cbn [batches] in Hb. destruct to_analyze as [|q rest]; [destruct Hb|].
  destruct Hb as [<-|Hb].
  - rewrite <- (firstn_skipn BATCH_SIZE (q :: rest)). apply in_or_app. left. exact Hp.
  - rewrite <- (firstn_skipn BATCH_SIZE (q :: rest)). apply in_or_app. right.
    apply (IH _ batch p Hb Hp).
Qed.

(** The batches cover the candidates, in order: the bound on their number
    is never reached. *)
Lemma batches_cover fuel : forall to_analyze,
  length to_analyze <= fuel -> concat (batches fuel to_analyze) = to_analyze.
Proof.
  induction fuel as [|fuel IH]; intros to_analyze H.
  - destruct to_analyze; [reflexivity | simpl in H; lia].
  - cbn [batches]. destruct to_analyze as [|q rest]; [reflexivity|].
    cbn [concat]. rewrite IH.
    + apply firstn_skipn.
    + rewrite length_skipn. simpl in *. lia.
Qed.

Section Driver.

Variable json_loads : str -> result json.
Variable fromisoformat : str -> option datetime.
Variable lower_char : char -> char.
Variable now : Z.
Variable now_iso : str.
Variable call_llm : nat -> nat -> result str.

Local Abbreviation run_batches := (run_batches json_loads now_iso call_llm).
Local Abbreviation main := (main json_loads fromisoformat lower_char now now_iso call_llm).

Lemma run_batches_evaluated : forall bs b f all_results analyzed_ids done batch,
  In batch (evaluated (run_batches bs b f all_results analyzed_ids done)) ->
  In batch done \/ In batch bs.
Proof.
  induction bs as [|x bs IH]; intros b f all_results analyzed_ids done batch H.
  - left. exact H.
  - cbn [Run.run_batches] in H.
    assert (Hstop : In batch (done ++ [x]) -> In batch done \/ In batch (x :: bs)).
    { intros Hin. apply in_app_or in Hin. destruct Hin as [Hin|[<-|[]]]; simpl; auto. }
    destruct (evaluate_batch json_loads (call_llm b) AGENTS now_iso x); [|auto].
    destruct (record_results _ _ _) as [[all_results' analyzed_ids']|]; [|auto].
    destruct (save_analyzed _ _) as [f'|]; [|auto].
    apply IH in H. destruct H as [H|H]; [auto | right; right; exact H].
Qed.

(** A candidate in a blacklisted zone is in no batch handed to
    [evaluate_batch]: no evaluator call is made for it and no result is
    built for it. *)
Lemma blacklisted_never_evaluated configured properties f batch p :
  In batch (evaluated (main configured properties f)) ->
  In p batch ->
  is_blacklisted lower_char p = false /\ In p properties.
Proof.
  unfold Run.main. intros Hb Hp.
  destruct (negb configured); [destruct Hb|].
  destruct (load_analyzed f) as [data|]; [|destruct Hb].
  destruct (x <- get_default data (u "analyzed_ids") (JList []);; py_set x)
    as [ids|]; [|destruct Hb].
  destruct (get_default data (u "results") (JList [])) as [res|]; [|destruct Hb].
  destruct (get_unanalyzed fromisoformat now properties ids) as [to_analyze|] eqn:Eg;
    [|destruct Hb].
  destruct (filter (fun p => negb (is_blacklisted lower_char p)) to_analyze)
    as [|q rest] eqn:Ef; [destruct Hb|].
  apply run_batches_evaluated in Hb. destruct Hb as [[]|Hb].
  pose proof (batches_In _ _ _ _ Hb Hp) as Hin. rewrite <- Ef in Hin.
  apply filter_In in Hin. destruct Hin as [Hin Hneg].
  apply negb_true_iff in Hneg. split; [exact Hneg|].
  apply (IntakeFacts.get_unanalyzed_In fromisoformat now ids properties to_analyze Eg p).
  exact Hin.
Qed.

(** C8: a missing progress file and a file that is not JSON text load as
    the empty record.  A file whose bytes are not text in the file's
    encoding makes [load_analyzed] raise [UnicodeDecodeError] (only
    [json.JSONDecodeError] is caught), and the run ends there, before any
    candidate is evaluated. *)
Theorem corrupted_progress_file (properties : list prop) :
  load_analyzed Missing = Ok empty_record
  /\ load_analyzed NotJson = Ok empty_record
  /\ load_analyzed Undecodable = Raise UnicodeDecodeError
  /\ aborted (main true properties Undecodable) = Some UnicodeDecodeError
  /\ evaluated (main true properties Undecodable) = []
  /\ file_after (main true properties Undecodable) = Undecodable.
Proof. repeat split. Qed.

End Driver.

Lemma contains_app_l s t p : contains s p = true -> contains (s ++ t) p = true.
Proof.
  rewrite !contains_iff. intros [a [b ->]]. exists a, (b ++ t).
  rewrite <- !app_assoc. reflexivity.
Qed.

Lemma contains_app_r s t p : contains t p = true -> contains (s ++ t) p = true.
Proof.
  rewrite !contains_iff. intros [a [b ->]]. exists (s ++ a), b.
  rewrite <- !app_assoc. reflexivity.
Qed.

(** The exclusion rule: a zone that occurs in the address or in the title,
    letter case aside, excludes the candidate. *)
Lemma is_blacklisted_match lower_char p zone :
  In zone BLACKLISTED_ZONES ->
  contains (lower lower_char (address p)) (lower lower_char zone) = true
  \/ contains (lower lower_char (title p)) (lower lower_char zone) = true ->
  is_blacklisted lower_char p = true.
Proof.
  intros Hz H. unfold is_blacklisted, is_blacklisted_in.
  apply existsb_exists. exists zone. split; [exact Hz|].
  unfold lower. rewrite !map_app. fold (lower lower_char (address p)).
  fold (lower lower_char (title p)).
  destruct H as [H|H].
  - apply contains_app_l. exact H.
  - apply contains_app_r. apply contains_app_r. exact H.
Qed.

(** C4: a candidate in a blacklisted zone is never evaluated, and its id
    is put in the in-memory set of evaluated ids; but when it is the only
    new candidate, [main] returns before any [save_analyzed]: the progress
    file is left as it was, and the next run finds the candidate eligible
    again.  With another candidate to evaluate, the save after the batch
    records both ids. *)
Theorem blacklisted_candidate_reappears :
  let main := main loads fromisoformat_basic lower_latin1 Samples.now
                (u "2026-02-14T09:30:00") Samples.service_down true in
  let eligible_at_start := eligible_at_start fromisoformat_basic Samples.now in
  let alone := main [Samples.in_raval] Missing in
  let together := main [Samples.in_raval; Samples.in_sants] Missing in
  is_blacklisted lower_latin1 Samples.in_raval = true
  /\ evaluated alone = []
  /\ id_in (id Samples.in_raval) (ids_after alone) = true
  /\ aborted alone = None
  /\ file_after alone = Missing
  /\ eligible_at_start [Samples.in_raval] (file_after alone) = Ok [Samples.in_raval]
  /\ evaluated together = [[Samples.in_sants]]
  /\ loaded_ids (file_after together) = Ok [JStr (u "a1"); JStr (u "q1")]
  /\ eligible_at_start [Samples.in_raval; Samples.in_sants] (file_after together) = Ok [].
Proof. vm_compute. repeat split. Qed.

End RunFacts.


(** ** The scenarios of the specification, run on the model *)

Module Scenarios.
Import Parser Orchestrator.

(** Scenario C: one vote for three expected items.  The element has no
    ["vote"] entry, so it becomes UNCERTAIN; items 2 and 3 are padding. *)
Example scenario_short_reply :
  parse_batch_votes loads (uq "[{'verdict':'YES','confidence':0.9}]") 3
  = Ok [ JDict [ (u "verdict", JStr YES); (u "confidence", JFloat (9 # 10));
                 (u "vote", JStr UNCERTAIN) ];
         missing_vote 2; missing_vote 3 ].
Proof. reflexivity. Qed.

(** A fenced reply is unwrapped before decoding. *)
Example scenario_fenced_reply :
  parse_batch_votes loads (u "```json" ++ [10%N] ++ uq "[{'vote':'NO'}]" ++ [10%N] ++ u "```") 1
  = Ok [ JDict [ (u "vote", JStr NO) ] ].
Proof. reflexivity. Qed.

(** Scenario A: five candidates, four personas, all of them voting NO on
    the third: its decision is SKIP and its score 0. *)
Example scenario_unanimous_reject :
  let reply := uq "[{'vote':'YES'},{'vote':'YES'},{'vote':'NO'},{'vote':'YES'},{'vote':'YES'}]" in
  let batch := repeat Samples.in_sants 5 in
  exists r1 r2 r3 r4 r5,
    evaluate_batch loads (fun _ => Ok reply) AGENTS [] batch = Ok [r1; r2; r3; r4; r5]
    /\ decision_ r3 = SKIP /\ score r3 = 0%Z /\ no_count r3 = 4
    /\ decision_ r1 = SEND /\ score r1 = 8%Z.
Proof.
  intros reply batch. do 5 eexists.
  split; [vm_compute; reflexivity | repeat split].
Qed.

(** Scenario B: the call of the second persona fails for a batch of three
    candidates: its three votes are UNCERTAIN with confidence 0.0, and the
    decision follows from the votes of the others. *)
Example scenario_persona_failure :
  let reply := uq "[{'vote':'NO'},{'vote':'YES'},{'vote':'NO'}]" in
  let call_llm k := if k =? 1 then Raise (RequestException (u "timeout")) else Ok reply in
  let batch := repeat Samples.in_sants 3 in
  exists r1 r2 r3,
    evaluate_batch loads call_llm AGENTS [] batch = Ok [r1; r2; r3]
    /\ map (fun r => dict_get (votes r) (u "Barrio Scout")) [r1; r2; r3]
       = [ Some (agent_error_vote 1 (RequestException (u "timeout")));
           Some (agent_error_vote 2 (RequestException (u "timeout")));
           Some (agent_error_vote 3 (RequestException (u "timeout"))) ]
    /\ map decision_ [r1; r2; r3] = [SKIP; SEND; SKIP]
    /\ map (fun r => keys (votes r)) [r1; r2; r3]
       = repeat (map name AGENTS) 3.
Proof.
  intros reply call_llm batch. do 3 eexists.
  split; [vm_compute; reflexivity | repeat split].
Qed.

End Scenarios.

(** ** More on the report hand-off *)

Module SplitFacts.
Import PyFacts Notify NotifyFacts Shapes.

Lemma join_app (g h : list str) :
  g <> [] -> h <> [] ->
  join separator (g ++ h) = join separator g ++ separator ++ join separator h.
Proof.
  intros Hg Hh. induction g as [|x g IH]; [congruence|].
  destruct g as [|y g].
  - simpl app. rewrite join_cons by exact Hh. reflexivity.
  - change ((x :: y :: g) ++ h) with (x :: ((y :: g) ++ h)).
    rewrite join_cons by (simpl; discriminate).
    rewrite IH by discriminate.
    rewrite (join_cons separator x (y :: g)) by discriminate.
    rewrite <- !app_assoc. reflexivity.
Qed.

Lemma join_concat (groups : list (list str)) :
  Forall (fun g => g <> []) groups ->
  join separator (map (join separator) groups) = join separator (concat groups).
Proof.
  induction 1 as [|g groups Hg HF IH]; [reflexivity|].
  destruct groups as [|h groups].
  - simpl. rewrite app_nil_r. reflexivity.
  - cbn [map concat]. cbn [map] in IH.
    rewrite join_cons by discriminate. rewrite IH.
    rewrite join_app; [reflexivity | exact Hg |].
    inversion HF; subst. cbn [concat]. destruct h; [congruence | discriminate].
Qed.

(** The chunks of a text whose separator-delimited parts are not empty:
    the parts, grouped in order. *)
Lemma chunks_are_groups text max_len :
  Forall (fun b => b <> []) (split text separator) ->
  exists groups,
    _split_message text max_len = map (join separator) groups
    /\ concat groups = split text separator
    /\ Forall (fun g => g <> []) groups
    /\ Forall (fits_or_single max_len) groups.
Proof.
  intros Hparts. unfold _split_message.
  destruct (Nat.leb_spec (length text) max_len) as [Hle|Hgt].
  - exists [split text separator]. cbn [map concat]. rewrite app_nil_r.
    rewrite join_split by apply separator_not_nil.
    split; [reflexivity|]. split; [reflexivity|].
    split; (constructor; [|constructor]).
    + apply split_go_not_nil.
    + left. rewrite join_split by apply separator_not_nil. exact Hle.
  - destruct (pack_groups max_len (split text separator) [] []) as (groups & E & Hc & Hn & Hf).
    + exact Hparts.
    + constructor.
    + left. reflexivity.
    + exists groups. auto.
Qed.

(** X1: joining the chunks of [_split_message] with the separator gives the
    report back, when no separator-delimited part of the report is empty. *)
Theorem split_message_lossless (text : str) (max_len : nat) :
  Forall (fun b => b <> []) (split text separator) ->
  join separator (_split_message text max_len) = text.
Proof.
  intros H. destruct (chunks_are_groups text max_len H) as (groups & E & Hc & Hn & _).
  rewrite E, join_concat by exact Hn. rewrite Hc.
  apply join_split. apply separator_not_nil.
Qed.

Lemma split_message_lossless_witness :
  let text := join separator [u "Barcelona: 1. Flat A"; u "2. Flat B"; u "3. Flat C"] in
  join separator (_split_message text 40) = text.
Proof.
  intros text. apply (split_message_lossless text 40).
  vm_compute. repeat constructor; discriminate.
Defined.

Lemma pack_not_empty max_len : forall parts current messages,
  Forall (fun c => c <> []) messages ->
  Forall (fun c => c <> []) (pack max_len parts current messages).
Proof.
  induction parts as [|part parts IH]; intros current messages H; cbn [pack].
  - destruct current as [|c current]; [exact H|].
    apply Forall_app. split; [exact H | repeat constructor; discriminate].
  - destruct current as [|c current].
    + cbn [nonempty]. rewrite andb_false_r. apply IH. exact H.
    + cbn [nonempty]. rewrite andb_true_r.
      destruct (max_len <? _); apply IH; [|exact H].
      apply Forall_app. split; [exact H | repeat constructor; discriminate].
Qed.

(** X2: for a report longer than the limit, no chunk is empty, whatever the
    report holds. *)
Theorem split_message_no_empty_chunk (text : str) (max_len : nat) :
  max_len < length text ->
  Forall (fun chunk => chunk <> []) (_split_message text max_len).
Proof.
  intros H. unfold _split_message.
  destruct (Nat.leb_spec (length text) max_len) as [Hle|_]; [lia|].
  apply pack_not_empty. constructor.
Qed.

Lemma split_message_no_empty_chunk_witness :
  Forall (fun chunk => chunk <> [])
         (_split_message (separator ++ u "1. Flat A" ++ separator ++ separator) 20).
Proof.
  apply split_message_no_empty_chunk. vm_compute. lia.
Defined.

Lemma pack_greedy max_len : forall parts g messages,
  g <> [] ->
  Forall (fun b => b <> []) parts ->
  Forall (fun b => b <> []) g ->
  exists tail rest,
    pack max_len parts (join separator g) messages
    = messages ++ map (join separator) ((g ++ tail) :: rest)
    /\ greedy max_len ((g ++ tail) :: rest)
    /\ concat ((g ++ tail) :: rest) = g ++ parts.
Proof.
  induction parts as [|part parts IH]; intros g messages Hne Hparts Hg.
  - assert (Hc : nonempty (join separator g) = true)
      by (apply nonempty_true; apply join_not_nil; assumption).
    exists [], []. cbn [pack]. rewrite Hc. rewrite !app_nil_r.
    split; [reflexivity|]. split; [cbn; auto|]. cbn. rewrite !app_nil_r. reflexivity.
  - assert (Hc : nonempty (join separator g) = true)
      by (apply nonempty_true; apply join_not_nil; assumption).
    inversion Hparts as [|? ? Hpart Hparts']; subst.
    cbn [pack]. rewrite Hc, andb_true_r.
    destruct (Nat.ltb_spec max_len (length (join separator g ++ separator ++ part)))
      as [Hlt|Hle].
    + destruct (IH [part] (messages ++ [join separator g])) as (tail & rest & E & Hgr & Hcc).
      * discriminate.
      * exact Hparts'.
      * repeat constructor. exact Hpart.
      * exists [], (([part] ++ tail) :: rest).
        change (join separator [part]) with part in E. rewrite E.
        rewrite app_nil_r, <- app_assoc.
        split; [reflexivity|]. split.
        -- cbn [greedy]. split; [exact Hlt | exact Hgr].
        -- cbn [concat] in *. rewrite Hcc. reflexivity.
    + destruct (IH (g ++ [part]) messages) as (tail & rest & E & Hgr & Hcc).
      * destruct g; discriminate.
      * exact Hparts'.
      * apply Forall_app. split; [exact Hg | repeat constructor; exact Hpart].
      * exists (part :: tail), rest.
        rewrite join_snoc in E by exact Hne. rewrite E.
        replace (g ++ part :: tail) with ((g ++ [part]) ++ tail)
          by (rewrite <- app_assoc; reflexivity).
        split; [reflexivity|]. split; [exact Hgr|].
        rewrite Hcc, <- app_assoc. reflexivity.
Qed.

(** X3: the packing is greedy.  For a report longer than the limit whose
    parts are not empty, the chunks are the parts grouped in order, and a
    chunk is closed only when the first part of the next chunk would take
    it beyond the limit. *)
Theorem split_message_greedy (text : str) (max_len : nat) :
  max_len < length text ->
  Forall (fun b => b <> []) (split text separator) ->
  exists groups,
    _split_message text max_len = map (join separator) groups
    /\ concat groups = split text separator
    /\ greedy max_len groups.
Proof.
  intros Hlen Hparts. unfold _split_message.
  destruct (Nat.leb_spec (length text) max_len) as [Hle|_]; [lia|].
  destruct (split text separator) as [|p parts] eqn:E.
  - exfalso. exact (split_go_not_nil _ _ _ _ E).
  - inversion Hparts as [|? ? Hp Hparts']; subst.
    cbn [pack nonempty]. rewrite andb_false_r.
    destruct (pack_greedy max_len parts [p] []) as (tail & rest & Ep & Hgr & Hcc).
    + discriminate.
    + exact Hparts'.
    + repeat constructor. exact Hp.
    + exists (([p] ++ tail) :: rest). change (join separator [p]) with p in Ep.
      rewrite Ep. auto.
Qed.

Lemma split_message_greedy_witness :
  let text := join separator [u "Barcelona: 1. Flat A"; u "2. Flat B"; u "3. Flat C"] in
  exists groups,
    _split_message text 40 = map (join separator) groups
    /\ concat groups = split text separator
    /\ greedy 40 groups.
Proof.
  intros text. apply (split_message_greedy text 40).
  - vm_compute. lia.
  - vm_compute. repeat constructor; discriminate.
Defined.

Lemma with_headers_bound continuation max_len : forall parts j,
  Forall (fun c => length c <= max_len) parts ->
  Forall (fun m => length m <= max_len + length continuation)
         (with_headers continuation j parts)
  /\ length (with_headers continuation j parts) = length parts.
Proof.
  induction parts as [|part parts IH]; intros j H; cbn [with_headers].
  - split; [constructor | reflexivity].
  - inversion H; subst. destruct (IH (S j)) as [HF Hl]; [assumption|].
    split; [|simpl; rewrite Hl; reflexivity].
    constructor; [|exact HF].
    destruct (0 <? j); [rewrite length_app|]; lia.
Qed.

(** X4: what is sent for one city.  There is one message per chunk, the
    first message is the first chunk as it is, and when every part of the
    report is non-empty and within 4096 characters, every message is within
    4096 characters plus the length of the continuation header. *)
Theorem sent_chunks_bound (continuation full_msg : str) :
  Forall (fun b => b <> [] /\ length b <= 4096) (split full_msg separator) ->
  length (sent_chunks continuation full_msg) = length (_split_message full_msg 4096)
  /\ hd_error (sent_chunks continuation full_msg) = hd_error (_split_message full_msg 4096)
  /\ Forall (fun m => length m <= 4096 + length continuation)
            (sent_chunks continuation full_msg).
Proof.
  intros H.
  assert (Hne : Forall (fun b => b <> []) (split full_msg separator))
    by (eapply Forall_impl; [|exact H]; intros b [Hb _]; exact Hb).
  destruct (chunks_are_groups full_msg 4096 Hne) as (groups & E & Hc & Hn & Hf).
  assert (Hchunks : Forall (fun c => length c <= 4096) (_split_message full_msg 4096)).
  { rewrite E. apply Forall_forall. intros c Hin. apply in_map_iff in Hin.
    destruct Hin as [g [<- Hg]]. rewrite Forall_forall in Hf.
    destruct (Hf g Hg) as [Hfit | [b ->]]; [exact Hfit|].
    rewrite Forall_forall in H. apply (H b). rewrite <- Hc.
    apply in_concat. exists [b]. split; [exact Hg | left; reflexivity]. }
  unfold sent_chunks.
  destruct (with_headers_bound continuation 4096 (_split_message full_msg 4096) 0 Hchunks)
    as [HF Hl].
  split; [exact Hl|]. split; [|exact HF].
  destruct (_split_message full_msg 4096); reflexivity.
Qed.

Lemma sent_chunks_bound_witness :
  let full_msg := join separator [u "Barcelona: 1. Flat A"; repeat 97%N 4090] in
  length (sent_chunks (continuation label_barcelona) full_msg)
  = length (_split_message full_msg 4096)
  /\ hd_error (sent_chunks (continuation label_barcelona) full_msg)
     = hd_error (_split_message full_msg 4096)
  /\ Forall (fun m => length m <= 4096 + length (continuation label_barcelona))
            (sent_chunks (continuation label_barcelona) full_msg).
Proof.
  intros full_msg. apply (sent_chunks_bound (continuation label_barcelona) full_msg).
  assert (E : split full_msg separator = [u "Barcelona: 1. Flat A"; repeat 97%N 4090]).
  { apply split_join; [discriminate|].
    constructor; [apply block_ok_ascii; [reflexivity | discriminate]|].
    constructor; [|constructor]. apply block_ok_repeat; [discriminate | lia]. }
  rewrite E. constructor; [split; [discriminate | simpl; lia]|].
  constructor; [|constructor]. split; [discriminate|]. rewrite repeat_length. lia.
Defined.

End SplitFacts.

(** ** More on the response parser *)

Module FenceFacts.
Import PyFacts Parser ParserFacts.

Lemma lstrip_suffix s : exists ws, s = ws ++ lstrip s.
Proof.
  induction s as [|c s [ws IH]]; simpl.
  - exists []. reflexivity.
  - destruct (isspace c).
    + exists (c :: ws). simpl. f_equal. exact IH.
    + exists []. reflexivity.
Qed.

Lemma lstrip_head s c r : lstrip s = c :: r -> isspace c = false.
Proof.
  induction s as [|d s IH]; simpl; [discriminate|].
  destruct (isspace d) eqn:E; [exact IH|]. intros H. inversion H; subst. exact E.
Qed.

Lemma lstrip_fixed s : (forall c r, s = c :: r -> isspace c = false) -> lstrip s = s.
Proof.
  destruct s as [|c r]; [reflexivity|]. intros H. simpl.
  rewrite (H c r eq_refl). reflexivity.
Qed.

Lemma lstrip_lstrip s : lstrip (lstrip s) = lstrip s.
Proof.
  apply lstrip_fixed. intros c r H. exact (lstrip_head _ _ _ H).
Qed.

Lemma lstrip_In s x : In x (lstrip s) -> In x s.
Proof.
  destruct (lstrip_suffix s) as [ws E]. intros H. rewrite E.
  apply in_or_app. right. exact H.
Qed.

Lemma strip_In s x : In x (strip s) -> In x s.
Proof.
  unfold strip. intros H. apply in_rev in H. apply lstrip_In in H.
  apply in_rev in H. apply lstrip_In in H. exact H.
Qed.

Lemma strip_strip s : strip (strip s) = strip s.
Proof.
  unfold strip. set (a := lstrip s). set (b := lstrip (rev a)).
  assert (Hb : lstrip (rev b) = rev b).
  { apply lstrip_fixed. intros c r Hc.
    destruct (lstrip_suffix (rev a)) as [ws E]. fold b in E.
    assert (Ea : a = rev b ++ rev ws).
    { rewrite <- (rev_involutive a), E, rev_app_distr. reflexivity. }
    rewrite Hc in Ea. simpl in Ea. exact (lstrip_head s c _ Ea). }
  rewrite Hb, rev_involutive. unfold b. rewrite lstrip_lstrip. reflexivity.
Qed.

Lemma lstrip_app_space s w :
  isspace w = true ->
  lstrip (s ++ [w]) = match lstrip s with [] => [] | _ => lstrip s ++ [w] end.
Proof.
  intros Hw. induction s as [|c s IH]; simpl.
  - rewrite Hw. reflexivity.
  - destruct (isspace c); [exact IH | reflexivity].
Qed.

(** A line break on each side does not change what [strip] gives. *)
Lemma strip_lines (body : str) : strip ([10%N] ++ body ++ [10%N]) = strip body.
Proof.
  unfold strip. change ([10%N] ++ body ++ [10%N]) with (10%N :: (body ++ [10%N])).
  cbn [lstrip]. change (isspace 10%N) with true. cbv iota.
  rewrite lstrip_app_space by reflexivity.
  destruct (lstrip body) as [|c r] eqn:E; [reflexivity|].
  rewrite rev_app_distr. cbn [rev app lstrip].
  change (isspace 10%N) with true. cbv iota. reflexivity.
Qed.

(** Up to the first fence, when the text before it has no backquote. *)
Lemma split_go_fence b : forall cur rest,
  ~ In 96%N b ->
  split_go fence 0 cur (b ++ fence ++ rest) = (rev cur ++ b) :: split_go fence 0 [] rest.
Proof.
  induction b as [|c b IH]; intros cur rest Hb.
  - change ([] ++ fence ++ rest) with (fence ++ rest).
    rewrite split_go_match by apply fence_not_nil. rewrite app_nil_r. reflexivity.
  - change ((c :: b) ++ fence ++ rest) with (c :: (b ++ fence ++ rest)).
    rewrite split_go_nomatch.
    + rewrite IH by (simpl in Hb; tauto). simpl. rewrite <- app_assoc. reflexivity.
    + cbn [fence u list_ascii_of_string map startswith].
      destruct (N.eqb_spec c (N_of_ascii "`")) as [->|_]; [|reflexivity].
      exfalso. apply Hb. left. reflexivity.
Qed.

Lemma no_fence_at_head s : ~ In 96%N s -> startswith s fence = false.
Proof.
  intros H. destruct s as [|c s]; [reflexivity|].
  cbn [fence u list_ascii_of_string map startswith].
  destruct (N.eqb_spec c (N_of_ascii "`")) as [->|_]; [|reflexivity].
  exfalso. apply H. left. reflexivity.
Qed.

Lemma no_fence_at_end s : ~ In 96%N s -> endswith s fence = false.
Proof.
  intros H. unfold endswith.
  change (rev fence) with fence. apply no_fence_at_head.
  intros Hin. apply H. apply in_rev. exact Hin.
Qed.

(** Without backquotes, only the surrounding white space is removed. *)
Lemma unfence_plain (body : str) : ~ In 96%N body -> unfence body = Ok (strip body).
Proof.
  intros H. unfold unfence.
  assert (Hs : ~ In 96%N (strip body)) by (intros Hin; apply H, strip_In, Hin).
  rewrite (no_fence_at_head _ Hs). cbn [bind].
  rewrite (no_fence_at_end _ Hs). reflexivity.
Qed.

(** A fenced reply, with or without the [json] tag, is unwrapped to its
    body between the two line breaks. *)
Lemma unfence_fenced (tag body : str) :
  tag = [] \/ tag = u "json" ->
  ~ In 96%N body ->
  unfence (fence ++ tag ++ [10%N] ++ body ++ [10%N] ++ fence)
  = Ok ([10%N] ++ body ++ [10%N]).
Proof.
  intros Htag Hb. unfold unfence.
  set (text := fence ++ tag ++ [10%N] ++ body ++ [10%N] ++ fence).
  assert (Hstrip : strip text = text).
  { unfold strip. rewrite (lstrip_fixed text).
    - rewrite (lstrip_fixed (rev text)); [apply rev_involutive|].
      intros c r Hc. unfold text in Hc.
      rewrite !app_assoc, rev_app_distr in Hc. inversion Hc. reflexivity.
    - intros c r Hc. unfold text in Hc. inversion Hc. reflexivity. }
  rewrite Hstrip.
  assert (Hstart : startswith text fence = true).
  { apply startswith_app. eexists. reflexivity. }
  rewrite Hstart.
  assert (Hinner : ~ In 96%N (tag ++ [10%N] ++ body ++ [10%N])).
  { rewrite !in_app_iff. simpl.
    destruct Htag as [-> | ->]; simpl; intuition discriminate. }
  assert (Hsplit : split text fence = [[]; tag ++ [10%N] ++ body ++ [10%N]; []]).
  { unfold split, text. rewrite split_go_match by apply fence_not_nil.
    replace (tag ++ [10%N] ++ body ++ [10%N] ++ fence)
      with ((tag ++ [10%N] ++ body ++ [10%N]) ++ fence ++ [])
      by (rewrite app_nil_r, <- !app_assoc; reflexivity).
    rewrite split_go_fence by exact Hinner. reflexivity. }
  rewrite Hsplit. cbn [nth_error]. cbn [bind].
  assert (Htagged : (if startswith (tag ++ [10%N] ++ body ++ [10%N]) (u "json")
                     then skipn 4 (tag ++ [10%N] ++ body ++ [10%N])
                     else tag ++ [10%N] ++ body ++ [10%N])
                    = [10%N] ++ body ++ [10%N]).
  { destruct Htag as [-> | ->]; reflexivity. }
  rewrite Htagged.
  replace (endswith ([10%N] ++ body ++ [10%N]) fence) with false; [reflexivity|].
  symmetry. unfold endswith. rewrite !app_assoc, rev_app_distr. reflexivity.
Qed.

Section Fenced.

Variable json_loads : str -> result json.

(** X5: a reply wrapped in a code fence (with or without the [json] tag,
    a line break after the opening and before the closing fence) is parsed
    exactly as the bare reply, when the reply holds no backquote. *)
Theorem fenced_reply_parses_like_bare (tag body : str) (n : nat) :
  tag = [] \/ tag = u "json" ->
  ~ In 96%N body ->
  parse_batch_votes json_loads (fence ++ tag ++ [10%N] ++ body ++ [10%N] ++ fence) n
  = parse_batch_votes json_loads body n.
Proof.
  intros Htag Hb. unfold parse_batch_votes.
  rewrite (unfence_fenced tag body Htag Hb), (unfence_plain body Hb). cbn [bind].
  rewrite strip_lines, strip_strip. reflexivity.
Qed.

End Fenced.

Lemma fenced_reply_parses_like_bare_witness :
  parse_batch_votes loads
    (fence ++ u "json" ++ [10%N] ++ uq "[{'vote':'NO'}]" ++ [10%N] ++ fence) 2
  = parse_batch_votes loads (uq "[{'vote':'NO'}]") 2.
Proof.
  apply (fenced_reply_parses_like_bare loads (u "json") (uq "[{'vote':'NO'}]") 2).
  - right. reflexivity.
  - vm_compute. intuition discriminate.
Defined.

End FenceFacts.

Module VoteFacts.
Import PyFacts Parser ParserFacts Shapes.

Lemma valid_is_dict l : forallb valid_vote l = true -> forallb is_dict l = true.
Proof.
  induction l as [|v l IH]; simpl; [reflexivity|].
  rewrite !andb_true_iff. intros [Hv Hl]. split; [|apply IH; exact Hl].
  destruct v; try discriminate. reflexivity.
Qed.

Lemma mapM_normalize_valid l :
  forallb valid_vote l = true -> mapM normalize l = Ok l.
Proof.
  induction l as [|v l IH]; simpl; [reflexivity|].
  rewrite andb_true_iff. intros [Hv Hl].
  destruct v; try discriminate. simpl in Hv. cbn [normalize]. rewrite Hv.
  cbn [bind]. rewrite (IH Hl). reflexivity.
Qed.

Lemma pad_closed l n :
  pad n l n = l ++ map (fun i => missing_vote (i + 1)) (seq (length l) (n - length l)).
Proof.
  destruct (pad_spec n l n) as [k [E Hk]]; [lia|].
  rewrite E. replace k with (n - length l) by lia. reflexivity.
Qed.

Lemma normalize_only_verdict d :
  exists d', normalize (JDict d) = Ok (JDict d')
             /\ only_verdict_changed (JDict d) (JDict d').
Proof.
  unfold normalize. destruct (is_verdict (dict_get d (u "vote"))) eqn:E.
  - exists d. split; [reflexivity|]. exists d, d. rewrite E.
    repeat split; auto; discriminate.
  - exists (dict_set d (u "vote") (JStr UNCERTAIN)). split; [reflexivity|].
    exists d, (dict_set d (u "vote") (JStr UNCERTAIN)). rewrite E.
    repeat split; try discriminate.
    + intros k Hk. apply dict_get_set_other. congruence.
    + intros _. apply dict_get_set_same.
Qed.

Lemma mapM_normalize_only_verdict l :
  forallb is_dict l = true ->
  exists l', mapM normalize l = Ok l' /\ Forall2 only_verdict_changed l l'.
Proof.
  induction l as [|v l IH]; intros H.
  - exists []. split; [reflexivity | constructor].
  - simpl in H. apply andb_true_iff in H. destruct H as [Hv Hl].
    destruct v; try discriminate.
    destruct (normalize_only_verdict d) as [d' [E HR]].
    destruct (IH Hl) as [l' [El HF]].
    exists (JDict d' :: l'). split.
    + cbn [mapM]. rewrite E. cbn [bind]. rewrite El. reflexivity.
    + constructor; assumption.
Qed.

Section Votes.

Variable json_loads : str -> result json.

(** X6: a reply that decodes to vote records with valid verdicts is
    returned as decoded, in order: cut after [n] records when there are
    more, completed by padding votes numbered by their position when there
    are fewer.  With exactly [n] records the result is the decoded list. *)
Theorem valid_reply_passes_through (raw t : str) (v : json) (n : nat) :
  unfence raw = Ok t ->
  json_loads (strip t) = Ok v ->
  forallb valid_vote (as_list v) = true ->
  parse_batch_votes json_loads raw n
  = Ok (firstn n (as_list v
                  ++ map (fun i => missing_vote (i + 1))
                         (seq (length (as_list v)) (n - length (as_list v)))))
  /\ (length (as_list v) = n -> parse_batch_votes json_loads raw n = Ok (as_list v)).
Proof.
  intros Ht Hv Hvalid.
  assert (E : parse_batch_votes json_loads raw n
              = Ok (firstn n (as_list v
                      ++ map (fun i => missing_vote (i + 1))
                             (seq (length (as_list v)) (n - length (as_list v)))))).
  { unfold parse_batch_votes. rewrite Ht. cbn [bind]. rewrite Hv.
    rewrite (mapM_normalize_valid _ Hvalid). cbn [bind]. rewrite pad_closed.
    reflexivity. }
  split; [exact E|]. intros Hn. rewrite E, Hn, Nat.sub_diag. cbn [seq map].
  rewrite app_nil_r. rewrite <- Hn. rewrite firstn_all. reflexivity.
Qed.

(** X7: a vote of the result is a synthesized vote, or the decoded object
    at the same position with nothing changed but, when its verdict is
    missing or not one of the three values, the verdict, set to
    UNCERTAIN. *)
Theorem only_the_verdict_is_repaired (raw : str) (n : nat) (votes : list json)
    (i : nat) (vote : json) :
  parse_batch_votes json_loads raw n = Ok votes ->
  nth_error votes i = Some vote ->
  (vote = missing_vote (i + 1) \/ vote = parse_failure_vote (i + 1))
  \/ exists t v x,
       unfence raw = Ok t /\ json_loads (strip t) = Ok v
       /\ nth_error (as_list v) i = Some x
       /\ only_verdict_changed x vote.
Proof.
  destruct (unfence_ok raw) as [t Ht].
  unfold parse_batch_votes. rewrite Ht. cbn [bind].
  destruct (json_loads (strip t)) as [v|e] eqn:Ev.
  - destruct (forallb is_dict (as_list v)) eqn:E.
    + destruct (mapM_normalize_only_verdict _ E) as [l' [El HF]].
      rewrite El. cbn [bind]. intros H Hi. inversion H; subst; clear H.
      rewrite nth_error_firstn in Hi. destruct (i <? n); [|discriminate].
      rewrite pad_closed in Hi.
      rewrite nth_error_app in Hi. destruct (Nat.ltb_spec i (length l')) as [Hlt|Hge].
      * right. destruct (Forall2_nth_error _ _ _ HF i vote Hi) as [x [Hx HR]].
        exists t, v, x. auto.
      * left. left. apply nth_error_synthetic in Hi. rewrite Hi. f_equal. lia.
    + rewrite (mapM_normalize_other _ E). discriminate.
  - destruct e; try discriminate. intros H Hi. inversion H; subst; clear H.
    left. right. apply nth_error_synthetic in Hi. exact Hi.
Qed.

End Votes.

Lemma valid_reply_passes_through_witness :
  let raw := uq "[{'vote':'NO','summary':'too dark'},{'vote':'YES'}]" in
  parse_batch_votes loads raw 3
  = Ok [ JDict [ (u "vote", JStr NO); (u "summary", JStr (u "too dark")) ];
         JDict [ (u "vote", JStr YES) ];
         missing_vote 3 ].
Proof.
  intros raw.
  destruct (valid_reply_passes_through loads raw raw
              (JList [ JDict [ (u "vote", JStr NO); (u "summary", JStr (u "too dark")) ];
                       JDict [ (u "vote", JStr YES) ] ]) 3) as [E _];
    [reflexivity | reflexivity | reflexivity |].
  exact E.
Defined.

Lemma only_the_verdict_is_repaired_witness :
  let raw := uq "[{'vote':'maybe','summary':'no lift'}]" in
  let vote := JDict [ (u "vote", JStr UNCERTAIN); (u "summary", JStr (u "no lift")) ] in
  (vote = missing_vote 1 \/ vote = parse_failure_vote 1)
  \/ exists t v x,
       unfence raw = Ok t /\ loads (strip t) = Ok v
       /\ nth_error (as_list v) 0 = Some x
       /\ only_verdict_changed x vote.
Proof.
  intros raw vote.
  apply (only_the_verdict_is_repaired loads raw 1 [vote] 0 vote); reflexivity.
Defined.

End VoteFacts.

(** ** More on the decision policy and the orchestrator *)

Module ScoreFacts.
Import PyFacts Parser ParserFacts Orchestrator OrchestratorFacts.

Lemma build_result_score now p votes r :
  build_result now p votes = Ok r ->
  exists vals scores,
    mapM vote_of (values votes) = Ok vals
    /\ mapM score_of vals = Ok scores
    /\ score r = fold_right Z.add 0%Z scores.
Proof.
  unfold build_result. intros H.
  destruct (mapM vote_of (values votes)) as [vals|]; [|discriminate]. cbn [bind] in H.
  destruct (mapM score_of vals) as [scores|] eqn:Es; [|discriminate]. cbn [bind] in H.
  destruct (sum_confidence (values votes) 0) as [total|]; [|discriminate].
  cbn [bind] in H. inversion H; subst. exists vals, scores.
  split; [reflexivity|]. split; [exact Es | reflexivity].
Qed.

Lemma score_of_cases x z :
  score_of x = Ok z ->
  z = ((if is_str YES x then 2 else 0) + (if is_str UNCERTAIN x then 1 else 0))%Z
  /\ (if is_str YES x then 1 else 0) + (if is_str NO x then 1 else 0)
     + (if is_str UNCERTAIN x then 1 else 0) <= 1.
Proof.
  destruct x; simpl; try discriminate; intros H; inversion H; subst; clear H;
    try (split; [reflexivity | lia]).
  destruct (str_eqb s YES) eqn:Ey.
  - apply str_eqb_eq in Ey. subst. split; [reflexivity | simpl; lia].
  - destruct (str_eqb s UNCERTAIN) eqn:Eu.
    + apply str_eqb_eq in Eu. subst. split; [reflexivity | simpl; lia].
    + destruct (str_eqb s NO); split; try reflexivity; lia.
Qed.

Lemma sum_of_scores vals : forall scores,
  mapM score_of vals = Ok scores ->
  fold_right Z.add 0%Z scores
  = (2 * Z.of_nat (count_votes YES vals) + Z.of_nat (count_votes UNCERTAIN vals))%Z
  /\ count_votes YES vals + count_votes NO vals + count_votes UNCERTAIN vals
     <= length vals.
Proof.
  induction vals as [|x vals IH]; intros scores H.
  - inversion H. split; reflexivity.
  - cbn [mapM] in H. destruct (score_of x) as [z|] eqn:Ez; [|discriminate].
    cbn [bind] in H. destruct (mapM score_of vals) as [zs|]; [|discriminate].
    cbn [bind] in H. inversion H; subst; clear H.
    destruct (IH zs eq_refl) as [Hs Hc].
    destruct (score_of_cases _ _ Ez) as [-> Hx].
    unfold count_votes in *. cbn [filter fold_right length].
    destruct (is_str YES x), (is_str NO x), (is_str UNCERTAIN x);
      cbn [length]; split; lia.
Qed.

(** X8: the score of a candidate is twice its YES count plus its
    UNCERTAIN count, the three counts together never exceed the number of
    votes, so the score lies between 0 and twice the number of votes; a
    skipped candidate has no YES vote and a score of at most the number of
    votes that are not NO. *)
Theorem score_and_counts (now : str) (p : prop) (votes : vote_map) (r : batch_result) :
  build_result now p votes = Ok r ->
  score r = (2 * Z.of_nat (yes_count r) + Z.of_nat (count_verdict UNCERTAIN votes))%Z
  /\ yes_count r + no_count r + count_verdict UNCERTAIN votes <= length votes
  /\ (0 <= score r <= 2 * Z.of_nat (length votes))%Z
  /\ (decision_ r = SKIP ->
      yes_count r = 0 /\ (score r <= Z.of_nat (length votes - no_count r))%Z).
Proof.
  intros H.
  destruct (build_result_fields _ _ _ _ H) as (_ & _ & Hno & Hyes & Hd & _).
  destruct (build_result_score _ _ _ _ H) as (vals & scores & Ev & Es & Hscore).
  destruct (sum_of_scores _ _ Es) as [Hsum Hcount].
  rewrite (count_votes_verdict YES _ _ Ev), (count_votes_verdict UNCERTAIN _ _ Ev)
    in Hsum, Hcount.
  rewrite (count_votes_verdict NO _ _ Ev) in Hcount.
  fold (count_verdict YES votes) in Hsum, Hcount.
  fold (count_verdict NO votes) in Hcount.
  fold (count_verdict UNCERTAIN votes) in Hsum, Hcount.
  assert (Hlen : length vals = length votes).
  { clear - Ev. unfold values in Ev. rewrite <- (length_map snd votes).
    revert vals Ev. generalize (map snd votes). intros l.
    induction l as [|v l IH]; intros vals E.
    - inversion E. reflexivity.
    - cbn [mapM] in E. destruct (vote_of v); [|discriminate]. cbn [bind] in E.
      destruct (mapM vote_of l) as [vs|]; [|discriminate]. cbn [bind] in E.
      inversion E; subst. simpl. rewrite (IH vs eq_refl). reflexivity. }
  rewrite Hlen in Hcount. rewrite Hscore, Hsum, Hyes, Hno.
  split; [reflexivity|]. split; [exact Hcount|]. split; [lia|].
  intros Hskip. rewrite Hd in Hskip. apply decide_skip in Hskip.
  rewrite Hyes, Hno in Hskip.
  assert (Hy : count_verdict YES votes = 0).
  { destruct Hskip as [[Hall _] | [_ Hy]]; [lia | exact Hy]. }
  split; [exact Hy | lia].
Qed.

Lemma score_and_counts_witness :
  let vote s := JDict [(u "vote", JStr s)] in
  let votes := [ (u "Financial Advisor", vote NO); (u "Barrio Scout", vote NO);
                 (u "Building Inspector", vote UNCERTAIN); (u "Deal Shark", vote NO) ] in
  exists r, build_result [] Samples.in_sants votes = Ok r
            /\ score r = 1%Z /\ yes_count r = 0.
Proof.
  intros vote votes.
  destruct (build_result [] Samples.in_sants votes) as [r|] eqn:E; [|discriminate E].
  exists r. split; [reflexivity|].
  destruct (score_and_counts [] Samples.in_sants votes r E) as (Hs & _ & _ & Hskip).
  assert (Hd : decision_ r = SKIP) by (vm_compute in E; inversion E; reflexivity).
  destruct (Hskip Hd) as [Hy _]. rewrite Hs, Hy. split; reflexivity.
Defined.

End ScoreFacts.

Module OutageFacts.
Import PyFacts Parser ParserFacts Orchestrator OrchestratorFacts ScoreFacts.

Lemma round2_zero (x : Q) : (x == 0)%Q -> (round2 x == 0)%Q.
Proof.
  intros Hx. unfold round2.
  assert (Hy : (x * 100 == 0)%Q) by (rewrite Hx; reflexivity).
  assert (Hf : Qfloor (x * 100) = 0%Z) by (rewrite Hy; reflexivity).
  rewrite Hf.
  assert (Hc : (x * 100 - inject_Z 0 ?= 1 # 2)%Q = Lt).
  { apply Qlt_alt. rewrite Hy. reflexivity. }
  rewrite Hc. reflexivity.
Qed.

(** What holds of a vote synthesized for a failed persona. *)
Lemma neutral_vote j e :
  let v := agent_error_vote j e in
  valid_vote v = true /\ numeric_confidence v = true
  /\ has_verdict UNCERTAIN v = true /\ has_verdict YES v = false
  /\ has_verdict NO v = false
  /\ (c <- confidence_of v ;; number_of c) = Ok 0%Q.
Proof. repeat split. Qed.

Lemma sum_confidence_zero l : forall acc,
  Forall (fun v => (c <- confidence_of v ;; number_of c) = Ok 0%Q) l ->
  exists t, sum_confidence l acc = Ok t /\ (t == acc)%Q.
Proof.
  induction l as [|v l IH]; intros acc H.
  - exists acc. split; reflexivity.
  - inversion H as [|? ? Hv Hl]; subst. cbn [sum_confidence].
    destruct (confidence_of v) as [c|]; [|discriminate]. cbn [bind] in *.
    rewrite Hv. cbn [bind].
    destruct (IH (acc + 0)%Q Hl) as [t [E Ht]]. exists t. split; [exact E|].
    rewrite Ht. ring.
Qed.

Lemma filter_none {A} (f : A -> bool) l :
  Forall (fun x => f x = false) l -> length (filter f l) = 0.
Proof.
  induction 1 as [|x l Hx _ IH]; simpl; [reflexivity|]. rewrite Hx. exact IH.
Qed.

Lemma filter_all {A} (f : A -> bool) l :
  Forall (fun x => f x = true) l -> length (filter f l) = length l.
Proof.
  induction 1 as [|x l Hx _ IH]; simpl; [reflexivity|]. rewrite Hx. simpl. lia.
Qed.

(** A candidate all of whose votes are such neutral votes. *)
Lemma build_result_neutral now p votes r :
  Forall (fun v => has_verdict UNCERTAIN v = true /\ has_verdict YES v = false
                   /\ has_verdict NO v = false
                   /\ (c <- confidence_of v ;; number_of c) = Ok 0%Q) (values votes) ->
  build_result now p votes = Ok r ->
  decision_ r = SEND /\ yes_count r = 0 /\ no_count r = 0
  /\ score r = Z.of_nat (length votes) /\ (confidence_avg r == 0)%Q.
Proof.
  intros HF H.
  destruct (build_result_fields _ _ _ _ H) as (_ & _ & Hno & Hyes & Hd & total & Et & Ha).
  destruct (build_result_score _ _ _ _ H) as (vals & scores & Ev & Es & Hscore).
  destruct (sum_of_scores _ _ Es) as [Hsum _].
  rewrite (count_votes_verdict YES _ _ Ev), (count_votes_verdict UNCERTAIN _ _ Ev) in Hsum.
  assert (Hy : count_verdict YES votes = 0).
  { apply filter_none. eapply Forall_impl; [|exact HF]. intros v Hv; cbv beta in *; tauto. }
  assert (Hn : count_verdict NO votes = 0).
  { apply filter_none. eapply Forall_impl; [|exact HF]. intros v Hv; cbv beta in *; tauto. }
  assert (Hu : length (filter (has_verdict UNCERTAIN) (values votes)) = length votes).
  { rewrite filter_all; [unfold values; apply length_map|].
    eapply Forall_impl; [|exact HF]. intros v Hv; cbv beta in *; tauto. }
  fold (count_verdict YES votes) in Hsum. rewrite Hy, Hu in Hsum.
  rewrite Hd, Hno, Hyes, Hn, Hy, Hscore, Hsum.
  split; [unfold decide; destruct (length votes); reflexivity|].
  split; [reflexivity|]. split; [reflexivity|]. split; [lia|].
  rewrite Ha. apply round2_zero.
  destruct (sum_confidence_zero (values votes) 0%Q) as [t [E Ht]].
  { eapply Forall_impl; [|exact HF]. intros v Hv; cbv beta in *; tauto. }
  rewrite E in Et. inversion Et; subst. rewrite Ht. reflexivity.
Qed.

Section Outage.

Variable json_loads : str -> result json.
Variable call_llm : nat -> result str.

(** X9: when the call of every persona fails, [evaluate_batch] still
    returns one result per candidate, in order, and every candidate is SEND
    with no YES, no NO, one point per vote and a mean confidence of 0. *)
Theorem all_personas_down (agents : list agent) (now : str) (batch : list prop) :
  (forall k, k < length agents -> exists e, call_llm k = Raise e) ->
  exists results,
    evaluate_batch json_loads call_llm agents now batch = Ok results
    /\ map property_id results = map id batch
    /\ Forall (fun r => decision_ r = SEND /\ yes_count r = 0 /\ no_count r = 0
                        /\ score r = Z.of_nat (length (votes r))
                        /\ (confidence_avg r == 0)%Q) results.
Proof.
  intros Hdown. unfold evaluate_batch.
  set (n := length batch).
  set (all_votes := collect_votes json_loads call_llm n 0 agents (repeat [] n)).
  assert (Hlen : length all_votes = n).
  { apply length_collect_votes. apply repeat_length. }
  assert (Hneutral : forall votes, In votes all_votes ->
            Forall (fun v => valid_vote v = true /\ numeric_confidence v = true
                             /\ has_verdict UNCERTAIN v = true
                             /\ has_verdict YES v = false
                             /\ has_verdict NO v = false
                             /\ (c <- confidence_of v ;; number_of c) = Ok 0%Q)
                   (values votes)).
  { intros votes Hin. apply In_nth_error in Hin. destruct Hin as [i Hi].
    apply collect_votes_zipped in Hi. destruct Hi as [Hi ->].
    apply zipped_Forall; [constructor|]. intros j Hj. simpl (0 + j).
    destruct (Hdown j Hj) as [e He].
    assert (Ea : attempt json_loads call_llm n j = Raise e)
      by (unfold attempt; rewrite He; reflexivity).
    rewrite (agent_votes_error json_loads call_llm n j i e Hi Ea).
    apply neutral_vote. }
  destruct (build_results_ok now batch all_votes Hlen) as [results E].
  { apply Forall_forall. intros m Hm. specialize (Hneutral m Hm).
    split; apply forallb_forall; intros v Hv;
      rewrite Forall_forall in Hneutral; apply (Hneutral v Hv). }
  exists results. split; [exact E|].
  split; [apply (build_results_fields now batch all_votes results Hlen E)|].
  apply Forall_forall. intros r Hr.
  destruct (build_results_In now batch all_votes results r E Hr) as (p & votes & _ & Hv & Er).
  destruct (build_result_fields _ _ _ _ Er) as (Hvotes & _).
  rewrite Hvotes. apply (build_result_neutral now p votes r); [|exact Er].
  eapply Forall_impl; [|exact (Hneutral votes Hv)]. intros v Hx; cbv beta in *; tauto.
Qed.

End Outage.

Lemma all_personas_down_witness :
  exists results,
    evaluate_batch loads (Samples.service_down 0) AGENTS []
      [Samples.in_sants; Samples.in_raval] = Ok results
    /\ map property_id results = [u "q1"; u "a1"]
    /\ Forall (fun r => decision_ r = SEND /\ yes_count r = 0 /\ no_count r = 0
                        /\ score r = Z.of_nat (length (votes r))
                        /\ (confidence_avg r == 0)%Q) results.
Proof.
  apply (all_personas_down loads (Samples.service_down 0) AGENTS []
           [Samples.in_sants; Samples.in_raval]).
  intros k _. eexists. reflexivity.
Defined.

End OutageFacts.

Module OrderFacts.
Import PyFacts Parser Orchestrator OrchestratorFacts.

Lemma mapM_Permutation {A B} (f : A -> result B) l l' :
  Permutation l l' ->
  forall ys, mapM f l = Ok ys -> exists ys', mapM f l' = Ok ys' /\ Permutation ys ys'.
Proof.
  induction 1 as [|x l l' _ IH|x y l|l l' l'' _ IH1 _ IH2]; intros ys H.
  - exists ys. split; [exact H | apply Permutation_refl].
  - cbn [mapM] in *. destruct (f x) as [b|]; [|discriminate]. cbn [bind] in *.
    destruct (mapM f l) as [bs|]; [|discriminate]. cbn [bind] in H.
    inversion H; subst. destruct (IH bs eq_refl) as [bs' [E HP]].
    rewrite E. exists (b :: bs'). split; [reflexivity | constructor; exact HP].
  - cbn [mapM] in *. destruct (f y) as [b|]; [|discriminate]. cbn [bind] in *.
    destruct (f x) as [a|]; [|discriminate]. cbn [bind] in *.
    destruct (mapM f l) as [bs|]; [|discriminate]. cbn [bind] in *.
    inversion H; subst. exists (a :: b :: bs). split; [reflexivity | constructor].
  - destruct (IH1 ys H) as [ys' [E1 P1]]. destruct (IH2 ys' E1) as [ys'' [E2 P2]].
    exists ys''. split; [exact E2 | eapply Permutation_trans; eauto].
Qed.

Lemma count_Permutation {A} (f : A -> bool) l l' :
  Permutation l l' -> length (filter f l) = length (filter f l').
Proof.
  induction 1 as [|x l l' _ IH|x y l|l l' l'' _ IH1 _ IH2]; simpl; try congruence.
  - destruct (f x); simpl; congruence.
  - destruct (f x), (f y); reflexivity.
Qed.

Lemma sum_Permutation l l' :
  Permutation l l' -> fold_right Z.add 0%Z l = fold_right Z.add 0%Z l'.
Proof.
  induction 1 as [|x l l' _ IH|x y l|l l' l'' _ IH1 _ IH2]; simpl; lia.
Qed.

(** X10: the order of the votes in the vote map does not matter for the
    verdict: when two maps with the same votes in another order both give
    a result, the two results have the same decision, score, YES count and
    NO count. *)
Theorem persona_order_is_irrelevant (now : str) (p : prop) (votes votes' : vote_map)
    (r r' : batch_result) :
  Permutation votes votes' ->
  build_result now p votes = Ok r ->
  build_result now p votes' = Ok r' ->
  decision_ r' = decision_ r /\ score r' = score r
  /\ yes_count r' = yes_count r /\ no_count r' = no_count r.
Proof.
  intros HP H H'.
  assert (HPv : Permutation (values votes) (values votes'))
    by (apply Permutation_map; exact HP).
  assert (Hlen : length votes' = length votes)
    by (symmetry; apply Permutation_length; exact HP).
  unfold build_result in *.
  destruct (mapM vote_of (values votes)) as [vals|] eqn:Ev; [|discriminate].
  cbn [bind] in H.
  destruct (mapM score_of vals) as [scores|] eqn:Es; [|discriminate]. cbn [bind] in H.
  destruct (sum_confidence (values votes) 0) as [t|]; [|discriminate].
  cbn [bind] in H. inversion H; subst; clear H.
  destruct (mapM_Permutation _ _ _ HPv vals Ev) as [vals' [Ev' Pv]].
  destruct (mapM_Permutation _ _ _ Pv scores Es) as [scores' [Es' Ps]].
  rewrite Ev' in H'. cbn [bind] in H'. rewrite Es' in H'. cbn [bind] in H'.
  destruct (sum_confidence (values votes') 0) as [t'|]; [|discriminate].
  cbn [bind] in H'. inversion H'; subst; clear H'.
  cbn [decision_ score yes_count no_count]. rewrite Hlen.
  assert (Hn : count_votes NO vals' = count_votes NO vals)
    by (symmetry; apply count_Permutation; exact Pv).
  assert (Hy : count_votes YES vals' = count_votes YES vals)
    by (symmetry; apply count_Permutation; exact Pv).
  rewrite Hn, Hy, <- (sum_Permutation _ _ Ps).
  repeat split.
Qed.

Lemma persona_order_is_irrelevant_witness :
  let vote s c := JDict [(u "vote", JStr s); (u "confidence", JFloat c)] in
  let votes := [ (u "Financial Advisor", vote NO (1 # 2)%Q);
                 (u "Barrio Scout", vote YES (9 # 10)%Q) ] in
  let votes' := [ (u "Barrio Scout", vote YES (9 # 10)%Q);
                  (u "Financial Advisor", vote NO (1 # 2)%Q) ] in
  exists r r',
    build_result [] Samples.in_sants votes = Ok r
    /\ build_result [] Samples.in_sants votes' = Ok r'
    /\ decision_ r' = decision_ r /\ score r' = score r
    /\ yes_count r' = yes_count r /\ no_count r' = no_count r.
Proof.
  intros vote votes votes'.
  destruct (build_result [] Samples.in_sants votes) as [r|] eqn:E; [|discriminate E].
  destruct (build_result [] Samples.in_sants votes') as [r'|] eqn:E'; [|discriminate E'].
  exists r, r'. split; [reflexivity|]. split; [reflexivity|].
  exact (persona_order_is_irrelevant [] Samples.in_sants votes votes' r r'
           (perm_swap _ _ []) E E').
Defined.

End OrderFacts.

(** ** The vote bar of the report *)

Module RenderFacts.
Import PyFacts Parser ParserFacts Orchestrator OrchestratorFacts Render.

Lemma Forall2_impl_In {A B} (R R' : A -> B -> Prop) l l' :
  (forall a b, In a l -> R a b -> R' a b) -> Forall2 R l l' -> Forall2 R' l l'.
Proof.
  intros H HF. induction HF as [|a b l l' Hab _ IH]; constructor.
  - apply H; [left; reflexivity | exact Hab].
  - apply IH. intros x y Hx. apply H. right. exact Hx.
Qed.

(** Looking up the keys of a dictionary, in order, gives its values. *)
Lemma dict_get_keys {V} (d : dict V) :
  NoDup (keys d) -> Forall2 (fun k v => dict_get d k = Some v) (keys d) (values d).
Proof.
  induction d as [|[k v] d IH]; intros H; simpl; [constructor|].
  inversion H as [|? ? Hk Hd]; subst. constructor.
  - rewrite str_eqb_refl. reflexivity.
  - apply (Forall2_impl_In (fun k0 v0 => dict_get d k0 = Some v0)); [|exact (IH Hd)].
    intros k0 v0 Hin Hget. cbn beta.
    replace (str_eqb k k0) with false; [exact Hget|].
    symmetry. apply str_eqb_neq. intros ->. exact (Hk Hin).
Qed.

Lemma mark_counts v c :
  mark_of v = Ok c ->
  (c =? check_mark)%N = is_str YES v /\ (c =? cross_mark)%N = is_str NO v.
Proof.
  destruct v; simpl; try discriminate; intros H; inversion H; subst; clear H;
    try (split; reflexivity).
  destruct (str_eqb s YES) eqn:Ey.
  - apply str_eqb_eq in Ey. subst. split; reflexivity.
  - destruct (str_eqb s NO); split; reflexivity.
Qed.

(** What the bar shows for a persona agrees with how its vote is counted. *)
Lemma shown_vote_counts votes a v x s :
  dict_get votes (name a) = Some v ->
  shown_vote votes a = Ok x ->
  s <> UNCERTAIN ->
  is_str s x = has_verdict s v.
Proof.
  intros Hget H Hs. unfold shown_vote in H. rewrite Hget in H.
  destruct v; try discriminate. unfold has_verdict, vote_of.
  destruct (dict_get d (u "vote")) as [y|]; inversion H; subst; [reflexivity|].
  cbn [is_str]. apply str_eqb_neq. congruence.
Qed.

Lemma vote_bar_counts votes : forall agents vals bar,
  Forall2 (fun a v => dict_get votes (name a) = Some v) agents vals ->
  _vote_bar agents votes = Ok bar ->
  length bar = length agents
  /\ count_char check_mark bar = length (filter (has_verdict YES) vals)
  /\ count_char cross_mark bar = length (filter (has_verdict NO) vals).
Proof.
  unfold _vote_bar, count_char.
  induction agents as [|a agents IH]; intros vals bar HF H.
  - inversion HF; subst. inversion H; subst. repeat split.
  - inversion HF as [|? v ? vals' Hget HF']; subst. cbn [mapM] in H.
    destruct (shown_vote votes a) as [x|] eqn:Ex; [|discriminate]. cbn [bind] in H.
    destruct (mark_of x) as [c|] eqn:Ec; [|discriminate]. cbn [bind] in H.
    destruct (mapM _ agents) as [bar'|] eqn:Eb; [|discriminate]. cbn [bind] in H.
    inversion H; subst; clear H.
    destruct (IH vals' bar' HF' eq_refl) as (Hl & Hy & Hn).
    destruct (mark_counts _ _ Ec) as [Hcy Hcn].
    cbn [filter length].
    rewrite Hcy, Hcn.
    rewrite (shown_vote_counts votes a v x YES Hget Ex) by discriminate.
    rewrite (shown_vote_counts votes a v x NO Hget Ex) by discriminate.
    destruct (has_verdict YES v), (has_verdict NO v); cbn [length];
      repeat split; congruence.
Qed.

Lemma Forall2_map_l {A B C} (f : A -> B) (R : B -> C -> Prop) l l' :
  Forall2 R (map f l) l' -> Forall2 (fun a c => R (f a) c) l l'.
Proof.
  revert l'; induction l as [|a l IH]; intros l' H; inversion H; subst; constructor; auto.
Qed.

(** X11: for a vote map that has exactly one vote record per persona, in
    the personas' order (as [evaluate_batch] builds it), [_vote_bar] gives
    one mark per persona, with as many check marks as the YES count and as
    many cross marks as the NO count of the candidate. *)
Theorem vote_bar_matches_counts (agents : list agent) (votes : vote_map) :
  keys votes = map name agents ->
  NoDup (keys votes) ->
  forallb valid_vote (values votes) = true ->
  exists bar,
    _vote_bar agents votes = Ok bar
    /\ length bar = length agents
    /\ count_char check_mark bar = count_verdict YES votes
    /\ count_char cross_mark bar = count_verdict NO votes.
Proof.
  intros Hkeys Hnd Hvalid.
  pose proof (dict_get_keys votes Hnd) as HF. rewrite Hkeys in HF.
  apply Forall2_map_l in HF.
  assert (Hbar : exists bar, _vote_bar agents votes = Ok bar).
  { unfold _vote_bar. clear Hkeys Hnd.
    rewrite forallb_forall in Hvalid.
    induction HF as [|a v agents vals Hget _ IH]; [exists []; reflexivity|].
    destruct IH as [bar' E]; [intros x Hx; apply Hvalid; right; exact Hx|].
    assert (Hv : valid_vote v = true) by (apply Hvalid; left; reflexivity).
    cbn [mapM]. unfold shown_vote at 1. rewrite Hget.
    destruct v; try discriminate. simpl in Hv.
    destruct (dict_get d (u "vote")) as [[]|]; try discriminate.
    cbn [bind mark_of]. rewrite E. cbn [bind]. eauto. }
  destruct Hbar as [bar E]. exists bar. split; [exact E|].
  apply (vote_bar_counts votes agents (values votes) bar HF E).
Qed.

Lemma vote_bar_matches_counts_witness :
  let vote s := JDict [(u "vote", JStr s)] in
  let votes := [ (u "Financial Advisor", vote NO); (u "Barrio Scout", vote YES);
                 (u "Building Inspector", vote UNCERTAIN); (u "Deal Shark", vote NO) ] in
  exists bar,
    _vote_bar AGENTS votes = Ok bar
    /\ length bar = 4
    /\ count_char check_mark bar = count_verdict YES votes
    /\ count_char cross_mark bar = count_verdict NO votes.
Proof.
  intros vote votes. apply (vote_bar_matches_counts AGENTS votes).
  - reflexivity.
  - repeat constructor; simpl; intuition discriminate.
  - reflexivity.
Defined.

End RenderFacts.

(** ** More on the intake filter *)

Module IntakeMore.
Import PyFacts Orchestrator Intake IntakeFacts.

Section Filter.

Variable fromisoformat : str -> option datetime.

Lemma get_unanalyzed_again (now : Z) (properties filtered : list prop)
    (analyzed_ids analyzed_ids' : list json) :
  get_unanalyzed fromisoformat now properties analyzed_ids = Ok filtered ->
  (forall i, id_in i analyzed_ids = true -> id_in i analyzed_ids' = true) ->
  (forall p, In p filtered -> id_in (id p) analyzed_ids' = true) ->
  get_unanalyzed fromisoformat now properties analyzed_ids' = Ok [].
Proof.
  revert filtered. induction properties as [|q rest IH]; intros filtered H Hsub Hdone.
  - reflexivity.
  - cbn [get_unanalyzed] in *.
    destruct (eligible fromisoformat now analyzed_ids q) as [keep|] eqn:Eq; [|discriminate].
    cbn [bind] in H.
    destruct (get_unanalyzed fromisoformat now rest analyzed_ids) as [l|] eqn:El;
      [|discriminate].
    cbn [bind] in H. inversion H; subst; clear H.
    assert (Eq' : eligible fromisoformat now analyzed_ids' q = Ok false).
    { unfold eligible in *.
      destruct (id_in (id q) analyzed_ids') eqn:E'; [reflexivity|].
      destruct (id_in (id q) analyzed_ids) eqn:E.
      - rewrite (Hsub _ E) in E'. discriminate.
      - rewrite Eq. destruct keep; [|reflexivity].
        rewrite (Hdone q) in E'; [discriminate | left; reflexivity]. }
    rewrite Eq'. cbn [bind]. rewrite (IH l eq_refl Hsub); [reflexivity|].
    intros p Hp. apply Hdone. destruct keep; [right|]; exact Hp.
Qed.

(** X12: once the candidates [get_unanalyzed] returned are in the analyzed
    set (and nothing was taken out of it), [get_unanalyzed] returns nothing
    for the same history and clock. *)
Theorem get_unanalyzed_settles (now : Z) (properties filtered : list prop)
    (analyzed_ids analyzed_ids' : list json) :
  get_unanalyzed fromisoformat now properties analyzed_ids = Ok filtered ->
  (forall i, id_in i analyzed_ids = true -> id_in i analyzed_ids' = true) ->
  (forall p, In p filtered -> id_in (id p) analyzed_ids' = true) ->
  get_unanalyzed fromisoformat now properties analyzed_ids' = Ok [].
Proof. apply get_unanalyzed_again. Qed.

(** X13: candidates only age out.  With a later clock and a larger analyzed
    set, [get_unanalyzed] returns no candidate it did not return before. *)
Theorem get_unanalyzed_shrinks (now now' : Z) (properties filtered filtered' : list prop)
    (analyzed_ids analyzed_ids' : list json) :
  (now <= now')%Z ->
  (forall i, id_in i analyzed_ids = true -> id_in i analyzed_ids' = true) ->
  get_unanalyzed fromisoformat now properties analyzed_ids = Ok filtered ->
  get_unanalyzed fromisoformat now' properties analyzed_ids' = Ok filtered' ->
  forall p, In p filtered' -> In p filtered.
Proof.
  intros Hnow Hsub H H' p Hp.
  apply (get_unanalyzed_In fromisoformat now' analyzed_ids' properties filtered' H' p) in Hp.
  destruct Hp as [Hin He].
  apply (get_unanalyzed_In fromisoformat now analyzed_ids properties filtered H p).
  split; [exact Hin|].
  unfold eligible in *.
  destruct (id_in (id p) analyzed_ids') eqn:E'; [discriminate|].
  destruct (id_in (id p) analyzed_ids) eqn:E.
  - rewrite (Hsub _ E) in E'. discriminate.
  - destruct (scraped_at p) as [|c s]; [reflexivity|].
    destruct (fromisoformat (c :: s)) as [[t|t]|]; try discriminate; [|reflexivity].
    assert (Ht : negb (t <? now' - DAYS_TO_ANALYZE * day)%Z = true) by congruence.
    clear He. f_equal. apply negb_true_iff in Ht. apply negb_true_iff.
    apply Z.ltb_ge in Ht. apply Z.ltb_ge. lia.
Qed.

End Filter.

Lemma get_unanalyzed_settles_witness :
  get_unanalyzed fromisoformat_basic Samples.now [Samples.in_raval; Samples.in_sants]
    [JStr (u "a1"); JStr (u "q1")] = Ok [].
Proof.
  apply (get_unanalyzed_settles fromisoformat_basic Samples.now
           [Samples.in_raval; Samples.in_sants] [Samples.in_sants] [JStr (u "a1")]).
  - reflexivity.
  - intros i H. simpl in *. rewrite orb_false_r in H. rewrite H. reflexivity.
  - intros p [<-|[]]. reflexivity.
Defined.

(** Five days later the candidate of [Samples.in_sants] has aged out. *)
Lemma get_unanalyzed_shrinks_witness :
  let later := (Samples.now + 5 * day)%Z in
  let history := [Samples.in_raval; Samples.in_sants] in
  get_unanalyzed fromisoformat_basic Samples.now history [JStr (u "a1")]
  = Ok [Samples.in_sants]
  /\ get_unanalyzed fromisoformat_basic later history [JStr (u "a1")] = Ok []
  /\ (In Samples.in_sants [] -> In Samples.in_sants [Samples.in_sants]).
Proof.
  intros later history. split; [reflexivity|]. split; [reflexivity|].
  apply (get_unanalyzed_shrinks fromisoformat_basic Samples.now later
           history [Samples.in_sants] [] [JStr (u "a1")] [JStr (u "a1")]).
  - unfold later, day. lia.
  - auto.
  - reflexivity.
  - reflexivity.
Defined.

End IntakeMore.

(** ** More on the run driver *)

Module RunMore.
Import PyFacts Parser Orchestrator OrchestratorFacts Store Intake IntakeFacts IntakeMore.
Import Run RunFacts Shapes.

Lemma ceil_fifth_small n : 1 <= n -> n < 5 -> (n + 4) / 5 = 1.
Proof. intros. symmetry. apply (Nat.div_unique (n + 4) 5 1 (n - 1)); lia. Qed.

Lemma ceil_fifth_step n : 5 <= n -> (n + 4) / 5 = S ((n - 5 + 4) / 5).
Proof.
  intros. replace (n + 4) with ((n - 5 + 4) + 1 * 5) by lia.
  rewrite Nat.div_add by lia. lia.
Qed.

Lemma batches_shape fuel : forall to_analyze,
  length to_analyze <= fuel ->
  Forall (fun b => 1 <= length b <= BATCH_SIZE) (batches fuel to_analyze)
  /\ Forall (fun b => length b = BATCH_SIZE) (removelast (batches fuel to_analyze))
  /\ length (batches fuel to_analyze) = (length to_analyze + 4) / 5.
Proof.
  induction fuel as [|fuel IH]; intros to_analyze H.
  - destruct to_analyze; [|simpl in H; lia]. repeat split; constructor.
  - cbn [batches]. destruct to_analyze as [|q rest]; [repeat split; constructor|].
    set (l := q :: rest) in *.
    assert (Hl : 1 <= length l) by (simpl; lia).
    destruct (IH (skipn BATCH_SIZE l)) as (Hsz & Hfull & Hn).
    { rewrite length_skipn. unfold BATCH_SIZE. lia. }
    assert (Hfirst : length (firstn BATCH_SIZE l) = Nat.min BATCH_SIZE (length l))
      by apply length_firstn.
    split; [|split].
    + constructor; [unfold BATCH_SIZE in *; lia | exact Hsz].
    + destruct (batches fuel (skipn BATCH_SIZE l)) as [|b bs] eqn:Eb.
      * constructor.
      * change (removelast (firstn BATCH_SIZE l :: b :: bs))
          with (firstn BATCH_SIZE l :: removelast (b :: bs)).
        constructor; [|exact Hfull].
        destruct (Nat.lt_ge_cases (length l) BATCH_SIZE) as [Hlt|Hge];
          [|unfold BATCH_SIZE in *; lia].
        exfalso. assert (Hs : skipn BATCH_SIZE l = []) by (apply skipn_all2; lia).
        rewrite Hs in Eb. destruct fuel; discriminate.
    + cbn [length]. rewrite Hn, length_skipn. unfold BATCH_SIZE.
      destruct (Nat.lt_ge_cases (length l) 5) as [Hlt|Hge].
      * rewrite (ceil_fifth_small (length l)) by lia.
        replace (length l - 5) with 0 by lia. reflexivity.
      * rewrite (ceil_fifth_step (length l)) by lia. reflexivity.
Qed.

(** X14: the batches of a run are the candidates cut, in order, into
    groups of 5, the last one possibly shorter; there are
    [(n + 5 - 1) // 5] of them, the count [main] announces. *)
Theorem batches_partition (to_analyze : list prop) :
  let bs := batches (length to_analyze) to_analyze in
  concat bs = to_analyze
  /\ Forall (fun b => 1 <= length b <= 5) bs
  /\ Forall (fun b => length b = 5) (removelast bs)
  /\ length bs = (length to_analyze + BATCH_SIZE - 1) / BATCH_SIZE.
Proof.
  intros bs. split; [apply batches_cover; lia|].
  destruct (batches_shape (length to_analyze) to_analyze) as (H1 & H2 & H3); [lia|].
  split; [exact H1|]. split; [exact H2|].
  unfold bs. rewrite H3. unfold BATCH_SIZE. f_equal. lia.
Qed.

Lemma id_in_set_add_same ids i : id_in i (set_add ids i) = true.
Proof.
  unfold set_add. destruct (id_in i ids) eqn:E; [exact E|].
  unfold id_in. rewrite existsb_app. simpl. rewrite str_eqb_refl.
  rewrite orb_true_r. reflexivity.
Qed.

Lemma id_in_set_add_keeps ids i j : id_in j ids = true -> id_in j (set_add ids i) = true.
Proof.
  intros H. unfold set_add. destruct (id_in i ids); [exact H|].
  unfold id_in in *. rewrite existsb_app, H. reflexivity.
Qed.

Lemma hashable_set_add ids i :
  existsb unhashable ids = false -> existsb unhashable (set_add ids i) = false.
Proof.
  intros H. unfold set_add. destruct (id_in i ids); [exact H|].
  rewrite existsb_app, H. reflexivity.
Qed.

Lemma hashable_py_set x ids : py_set x = Ok ids -> existsb unhashable ids = false.
Proof.
  destruct x; simpl; try discriminate.
  - intros H. inversion H. clear. induction s; simpl; auto.
  - destruct (existsb unhashable l) eqn:E; [discriminate|]. congruence.
  - intros H. inversion H. clear. unfold keys. induction d; simpl; auto.
Qed.

(** The bookkeeping of one batch keeps the ids and adds those of its
    results. *)
Lemma record_results_ids : forall results all_results ids all_results' ids',
  record_results results all_results ids = Ok (all_results', ids') ->
  existsb unhashable ids = false ->
  existsb unhashable ids' = false
  /\ (forall i, id_in i ids = true -> id_in i ids' = true)
  /\ (forall r, In r results -> id_in (property_id r) ids' = true).
Proof.
  induction results as [|r results IH]; intros all_results ids all_results' ids' H Hh.
  - inversion H; subst. split; [exact Hh|]. split; [auto | intros r []].
  - cbn [record_results] in H.
    destruct (append all_results (result_json r)) as [res1|]; [|discriminate].
    cbn [bind] in H.
    destruct (IH _ _ _ _ H (hashable_set_add ids (property_id r) Hh)) as (H1 & H2 & H3).
    split; [exact H1|]. split.
    + intros i Hi. apply H2. apply id_in_set_add_keeps. exact Hi.
    + intros x [<-|Hx]; [|apply H3; exact Hx].
      apply H2. apply id_in_set_add_same.
Qed.

(** A saved record gives back the ids it was saved with. *)
Lemma loaded_ids_saved now_iso ids all_results f :
  save_analyzed now_iso (JDict [ (u "analyzed_ids", JList ids); (u "results", all_results) ])
  = Ok f ->
  existsb unhashable ids = false ->
  loaded_ids f = Ok ids.
Proof.
  intros H Hh. cbn in H. inversion H; subst; clear H.
  unfold loaded_ids. cbn. rewrite Hh. reflexivity.
Qed.

Section Persistence.

Variable json_loads : str -> result json.
Variable fromisoformat : str -> option datetime.
Variable lower_char : char -> char.
Variable now : Z.
Variable now_iso : str.
Variable call_llm : nat -> nat -> result str.

Local Abbreviation run_batches := (run_batches json_loads now_iso call_llm).
Local Abbreviation main := (main json_loads fromisoformat lower_char now now_iso call_llm).

Lemma evaluate_batch_ids b agents batch results :
  evaluate_batch json_loads (call_llm b) agents now_iso batch = Ok results ->
  map property_id results = map id batch.
Proof.
  unfold evaluate_batch. intros H.
  eapply build_results_fields; [|exact H].
  apply length_collect_votes. apply repeat_length.
Qed.

(** The loop over the batches, when every save goes through: the progress
    file holds the in-memory set after the last batch. *)
Lemma run_batches_persist : forall bs b f all_results ids done,
  existsb unhashable ids = false ->
  (done <> [] -> loaded_ids f = Ok ids) ->
  (forall p, In p (concat done) -> id_in (id p) ids = true) ->
  let o := run_batches bs b f all_results ids done in
  (aborted o = None -> done <> [] \/ bs <> [] ->
   loaded_ids (file_after o) = Ok (ids_after o))
  /\ (forall i, id_in i ids = true -> id_in i (ids_after o) = true)
  /\ (aborted o = None ->
      forall p, In p (concat (done ++ bs)) -> id_in (id p) (ids_after o) = true).
Proof.
  induction bs as [|batch bs IH]; intros b f all_results ids done Hh Hfile Hdone o.
  - subst o. cbn [Run.run_batches]. cbn [aborted evaluated file_after ids_after].
    split; [|split].
    + intros _ [Hd|Hb]; [apply Hfile; exact Hd | congruence].
    + auto.
    + intros _ p Hp. rewrite app_nil_r in Hp. apply Hdone. exact Hp.
  - assert (Hstop : forall e,
              let o := {| file_after := f; ids_after := ids;
                          evaluated := done ++ [batch]; aborted := Some e |} in
              (aborted o = None -> done <> [] \/ batch :: bs <> [] ->
               loaded_ids (file_after o) = Ok (ids_after o))
              /\ (forall i, id_in i ids = true -> id_in i (ids_after o) = true)
              /\ (aborted o = None ->
                  forall p, In p (concat (done ++ batch :: bs)) ->
                            id_in (id p) (ids_after o) = true)).
    { intros e o'. subst o'. cbn [aborted evaluated file_after ids_after].
      split; [|split]; try discriminate; auto. }
    subst o. cbn [Run.run_batches].
    destruct (evaluate_batch json_loads (call_llm b) AGENTS now_iso batch)
      as [results|e] eqn:Ee; [|apply Hstop].
    destruct (record_results results all_results ids) as [[res' ids']|e] eqn:Er;
      [|apply Hstop].
    destruct (save_analyzed now_iso _) as [f'|e] eqn:Es; [|apply Hstop].
    destruct (record_results_ids _ _ _ _ _ Er Hh) as (Hh' & Hkeep & Hnew).
    assert (Hbatch : forall p, In p batch -> id_in (id p) ids' = true).
    { intros p Hp. pose proof (evaluate_batch_ids _ _ _ _ Ee) as Hm.
      assert (Hin : In (id p) (map property_id results))
        by (rewrite Hm; apply in_map; exact Hp).
      apply in_map_iff in Hin. destruct Hin as [r [<- Hr]]. apply Hnew. exact Hr. }
    destruct (IH (S b) f' res' ids' (done ++ [batch]) Hh') as (H2 & H3 & H4).
    + intros _. apply (loaded_ids_saved now_iso ids' res' f' Es Hh').
    + intros p Hp. rewrite concat_app in Hp. apply in_app_or in Hp.
      destruct Hp as [Hp|Hp].
      * apply Hkeep. apply Hdone. exact Hp.
      * simpl in Hp. rewrite app_nil_r in Hp. apply Hbatch. exact Hp.
    + split; [|split].
      * intros Ha _. apply H2; [exact Ha|]. left. destruct done; discriminate.
      * intros i Hi. apply H3. apply Hkeep. exact Hi.
      * intros Ha p Hp. apply H4; [exact Ha|].
        rewrite <- app_assoc. exact Hp.
Qed.

End Persistence.

Lemma fold_set_add (l : list prop) : forall ids,
  existsb unhashable ids = false ->
  let ids' := fold_left (fun ids p => set_add ids (id p)) l ids in
  existsb unhashable ids' = false
  /\ (forall i, id_in i ids = true -> id_in i ids' = true)
  /\ (forall p, In p l -> id_in (id p) ids' = true).
Proof.
  induction l as [|q l IH]; intros ids Hh; cbn [fold_left].
  - split; [exact Hh|]. split; [auto | intros p []].
  - destruct (IH (set_add ids (id q)) (hashable_set_add ids (id q) Hh)) as (H1 & H2 & H3).
    split; [exact H1|]. split.
    + intros i Hi. apply H2. apply id_in_set_add_keeps. exact Hi.
    + intros p [<-|Hp]; [|apply H3; exact Hp]. apply H2. apply id_in_set_add_same.
Qed.

Lemma batches_not_nil q rest : batches (length (q :: rest)) (q :: rest) <> [].
Proof. discriminate. Qed.

Section Runs.

Variable json_loads : str -> result json.
Variable fromisoformat : str -> option datetime.
Variable lower_char : char -> char.
Variable now : Z.
Variable now_iso : str.
Variable call_llm : nat -> nat -> result str.

Local Abbreviation main := (main json_loads fromisoformat lower_char now now_iso call_llm).

(** X16: a run that evaluates at least one batch and ends normally leaves a
    progress file from which the next run, on the same history and clock,
    finds no candidate to analyze; and every id the file held before is
    still in it. *)
Theorem clean_run_settles (properties : list prop) (f : file) :
  aborted (main true properties f) = None ->
  evaluated (main true properties f) <> [] ->
  eligible_at_start fromisoformat now properties (file_after (main true properties f))
  = Ok []
  /\ (forall ids0 i,
        loaded_ids f = Ok ids0 -> id_in i ids0 = true ->
        exists ids, loaded_ids (file_after (main true properties f)) = Ok ids
                    /\ id_in i ids = true).
Proof.
  unfold eligible_at_start, Run.main. cbn [negb].
  destruct (load_analyzed f) as [data|] eqn:El;
    [|intros _ H; exfalso; apply H; reflexivity].
  destruct (x <- get_default data (u "analyzed_ids") (JList []);; py_set x)
    as [ids0|] eqn:E0; [|intros _ H; exfalso; apply H; reflexivity].
  destruct (get_default data (u "results") (JList [])) as [res|];
    [|intros _ H; exfalso; apply H; reflexivity].
  destruct (get_unanalyzed fromisoformat now properties ids0) as [to_analyze|] eqn:Eg;
    [|intros _ H; exfalso; apply H; reflexivity].
  destruct (filter (fun p => negb (is_blacklisted lower_char p)) to_analyze)
    as [|q rest] eqn:Ef; [intros _ H; exfalso; apply H; reflexivity|].
  assert (Hh0 : existsb unhashable ids0 = false).
  { destruct (get_default data (u "analyzed_ids") (JList [])) as [x|]; [|discriminate].
    cbn [bind] in E0. exact (hashable_py_set _ _ E0). }
  destruct (fold_set_add (filter (is_blacklisted lower_char) to_analyze) ids0 Hh0)
    as (Hh1 & Hkeep1 & Hblack).
  set (ids1 := fold_left (fun ids p => set_add ids (id p))
                 (filter (is_blacklisted lower_char) to_analyze) ids0) in *.
  destruct (run_batches_persist json_loads now_iso call_llm
              (batches (length (q :: rest)) (q :: rest)) 0 f res ids1 [] Hh1)
    as (H2 & H3 & H4); [congruence | intros x [] |].
  set (o := run_batches json_loads now_iso call_llm
              (batches (length (q :: rest)) (q :: rest)) 0 f res ids1 []) in *.
  intros Ha _.
  assert (Hfile : loaded_ids (file_after o) = Ok (ids_after o)).
  { apply H2; [exact Ha|]. right. apply batches_not_nil. }
  split.
  - rewrite Hfile. cbn [bind].
    apply (get_unanalyzed_again fromisoformat now properties to_analyze ids0); [exact Eg| |].
    + intros i Hi. apply H3. apply Hkeep1. exact Hi.
    + intros p Hp. destruct (is_blacklisted lower_char p) eqn:Eb.
      * apply H3. apply Hblack. apply filter_In. auto.
      * apply (H4 Ha). cbn [app]. rewrite batches_cover by lia. rewrite <- Ef.
        apply filter_In. rewrite Eb. auto.
  - intros ids i Hl Hi. exists (ids_after o). split; [exact Hfile|].
    apply H3. apply Hkeep1. unfold loaded_ids in Hl. rewrite El in Hl.
    cbn [bind] in Hl. rewrite E0 in Hl. inversion Hl; subst. exact Hi.
Qed.

(** X17: every candidate handed to the evaluator is one of the history,
    was eligible against the ids of the progress file the run started
    from, is in no blacklisted zone, and is in a batch of one to five. *)
Theorem evaluated_candidates_are_new (configured : bool) (properties : list prop)
    (f : file) (batch : list prop) (p : prop) :
  In batch (evaluated (main configured properties f)) ->
  In p batch ->
  In p properties
  /\ is_blacklisted lower_char p = false
  /\ 1 <= length batch <= BATCH_SIZE
  /\ exists ids, loaded_ids f = Ok ids
                 /\ eligible fromisoformat now ids p = Ok true.
Proof.
  unfold Run.main, loaded_ids. intros Hb Hp.
  destruct (negb configured); [destruct Hb|].
  destruct (load_analyzed f) as [data|]; [|destruct Hb].
  cbn [bind].
  destruct (x <- get_default data (u "analyzed_ids") (JList []);; py_set x)
    as [ids|]; [|destruct Hb].
  destruct (get_default data (u "results") (JList [])) as [res|]; [|destruct Hb].
  destruct (get_unanalyzed fromisoformat now properties ids) as [to_analyze|] eqn:Eg;
    [|destruct Hb].
  destruct (filter (fun p => negb (is_blacklisted lower_char p)) to_analyze)
    as [|q rest] eqn:Ef; [destruct Hb|].
  apply run_batches_evaluated in Hb. destruct Hb as [[]|Hb].
  pose proof (batches_In _ _ _ _ Hb Hp) as Hin. rewrite <- Ef in Hin.
  apply filter_In in Hin. destruct Hin as [Hin Hneg].
  apply negb_true_iff in Hneg.
  apply (IntakeFacts.get_unanalyzed_In fromisoformat now ids properties to_analyze Eg p)
    in Hin.
  destruct Hin as [Hin He].
  destruct (batches_shape (length (q :: rest)) (q :: rest)) as (Hsz & _); [lia|].
  rewrite Forall_forall in Hsz.
  split; [exact Hin|]. split; [exact Hneg|]. split; [apply Hsz; exact Hb|].
  exists ids. split; [reflexivity | exact He].
Qed.

(** X18: a candidate whose address or title contains the name of a
    blacklisted zone, letter case aside, is in no batch handed to the
    evaluator. *)
Theorem zone_match_never_evaluated (configured : bool) (properties : list prop)
    (f : file) (zone : str) (p : prop) (batch : list prop) :
  In zone BLACKLISTED_ZONES ->
  contains (lower lower_char (address p)) (lower lower_char zone) = true
  \/ contains (lower lower_char (title p)) (lower lower_char zone) = true ->
  In batch (evaluated (main configured properties f)) ->
  ~ In p batch.
Proof.
  intros Hz Hc Hb Hp.
  pose proof (is_blacklisted_match lower_char p zone Hz Hc) as Ht.
  destruct (blacklisted_never_evaluated json_loads fromisoformat lower_char now now_iso
              call_llm configured properties f batch p Hb Hp) as [Hf _].
  congruence.
Qed.

End Runs.

Lemma clean_run_settles_witness :
  eligible_at_start fromisoformat_basic Samples.now Cases.history
    (file_after Cases.quiet_run) = Ok []
  /\ (forall ids0 i,
        loaded_ids Missing = Ok ids0 -> id_in i ids0 = true ->
        exists ids, loaded_ids (file_after Cases.quiet_run) = Ok ids
                    /\ id_in i ids = true).
Proof.
  apply (clean_run_settles loads fromisoformat_basic lower_latin1 Samples.now
           (u "2026-02-14T09:30:00") Samples.service_down Cases.history Missing).
  - reflexivity.
  - vm_compute. discriminate.
Defined.

Lemma evaluated_candidates_are_new_witness :
  In Samples.in_sants Cases.history
  /\ is_blacklisted lower_latin1 Samples.in_sants = false
  /\ 1 <= length [Samples.in_sants] <= BATCH_SIZE
  /\ exists ids, loaded_ids Missing = Ok ids
                 /\ eligible fromisoformat_basic Samples.now ids Samples.in_sants = Ok true.
Proof.
  apply (evaluated_candidates_are_new loads fromisoformat_basic lower_latin1 Samples.now
           (u "2026-02-14T09:30:00") Samples.service_down true Cases.history Missing
           [Samples.in_sants] Samples.in_sants).
  - vm_compute. left. reflexivity.
  - left. reflexivity.
Defined.

Lemma zone_match_never_evaluated_witness :
  ~ In Samples.in_raval [Samples.in_sants].
Proof.
  apply (zone_match_never_evaluated loads fromisoformat_basic lower_latin1 Samples.now
           (u "2026-02-14T09:30:00") Samples.service_down true Cases.history Missing
           (u "Raval") Samples.in_raval [Samples.in_sants]).
  - left. reflexivity.
  - left. vm_compute. reflexivity.
  - vm_compute. left. reflexivity.
Defined.

End RunMore.


(** ** The evaluator client: bounds *)

Module ClientMore.
Import Client Shapes.

Lemma finish_ok r x :
  finish r = Ok x ->
  text r = Ok x /\ ((status_code r < 400)%Z \/ (600 <= status_code r)%Z).
Proof.
  unfold finish.
  destruct (400 <=? status_code r)%Z eqn:E1; destruct (status_code r <? 600)%Z eqn:E2;
    cbn [andb]; intros H; try discriminate; (split; [exact H|]).
  - right. apply Z.ltb_ge. exact E2.
  - left. apply Z.leb_gt. exact E1.
  - left. apply Z.leb_gt. exact E1.
Qed.

Lemma done_some o x :
  done o = Ok (Some x) -> exists r, o = Replied r /\ finish r = Ok x.
Proof.
  destruct o as [e|r]; cbn [done]; [discriminate|].
  destruct (finish r) as [y|] eqn:E; cbn [bind]; [|discriminate].
  intros H. inversion H; subst. exists r. auto.
Qed.

Lemma anthropic_cases (post : nat -> posted) :
  call_anthropic post true
  = (if overloaded (post 0) then
       if overloaded (post 1)
       then ([Post; Sleep 15; Post; Sleep 30; Post], done (post 2))
       else ([Post; Sleep 15; Post], done (post 1))
     else ([Post], done (post 0))).
Proof.
  unfold call_anthropic. cbn [seq anthropic_loop].
  destruct (post 0) as [e0|r0]; cbn [overloaded]; [reflexivity|].
  destruct (status_code r0 =? 529)%Z; cbn [andb Nat.ltb Nat.leb]; [|reflexivity].
  destruct (post 1) as [e1|r1]; cbn [overloaded]; [reflexivity|].
  destruct (status_code r1 =? 529)%Z; cbn [andb Nat.ltb Nat.leb]; [|reflexivity].
  destruct (post 2) as [e2|r2]; cbn [done]; [reflexivity|].
  rewrite andb_false_r. reflexivity.
Qed.

Lemma gemini_cases (post : nat -> posted) :
  call_gemini post true = ([Post], done (post 0)).
Proof. unfold call_gemini. destruct (post 0); reflexivity. Qed.


(** X20: a text returned by the client is the text of the last request
    made, and that request was answered with a status outside 400..599. *)
Theorem success_is_the_last_reply (post : nat -> posted) (p : provider) (x : str) :
  snd (call_llm post p true) = Ok (Some x) ->
  exists r,
    post (posts (fst (call_llm post p true)) - 1) = Replied r
    /\ text r = Ok x
    /\ ((status_code r < 400)%Z \/ (600 <= status_code r)%Z).
Proof.
  assert (H : exists i, call_llm post p true
                        = (fst (call_llm post p true), done (post i))
                        /\ posts (fst (call_llm post p true)) - 1 = i).
  { destruct p; cbn [call_llm].
    - rewrite anthropic_cases.
      destruct (overloaded (post 0)); [destruct (overloaded (post 1))|];
        eexists; (split; [reflexivity|]); reflexivity.
    - rewrite gemini_cases. eexists; (split; [reflexivity|]); reflexivity. }
  destruct H as (i & E & Ei). rewrite Ei. rewrite E. cbn [snd]. intros Hd.
  apply done_some in Hd. destruct Hd as (r & Hr & Hf).
  apply finish_ok in Hf. exists r. tauto.
Qed.

Lemma success_is_the_last_reply_witness :
  exists r,
    Cases.busy_twice (posts (fst (call_llm Cases.busy_twice Anthropic true)) - 1)
    = Replied r
    /\ text r = Ok (u "[]")
    /\ ((status_code r < 400)%Z \/ (600 <= status_code r)%Z).
Proof.
  apply (success_is_the_last_reply Cases.busy_twice Anthropic (u "[]")).
  reflexivity.
Defined.

End ClientMore.
